(** * Endpoint picker: datastore, scorers, pickers and the scheduler

    A shallow embedding of the scheduling core of the inference gateway
    extension (Go), with the properties of its specification stated and
    proved over the embedding.

    Conventions.
    - A Go map, and a [sync.Map], is a [gmap]; the iteration order of a
      Go map is unspecified, and no statement below depends on it.
    - A pointer that the code tests against [nil] is an [option]; a
      pointer that the code dereferences without a test is the value
      itself where no caller of the function can pass [nil], and an
      [option] whose [None] case panics otherwise.
    - A Go [int] is a [Z]; [float64] is the primitive binary64 [float].
    - A panic is the [Panics] outcome; [(value, error)] results are pairs
      whose second component is an [option error] ([None] is [nil]). *)

From Stdlib Require Import ZArith Ascii PrimFloat.
From stdpp Require Import gmap strings list fin_maps.

Set Warnings "-inexact-float,-register-all".

Local Open Scope string_scope.
Local Open Scope Z_scope.

(** ** Outcomes of a call: a normal return or a panic *)

Inductive panic : Type :=
| NilDereference
| IntnNonPositive
| IndexOutOfRange.

Inductive outcome (A : Type) : Type :=
| Returns (a : A)
| Panics (p : panic).

Arguments Returns {A} a.
Arguments Panics {A} p.

Definition obind {A B : Type} (m : outcome A) (k : A → outcome B) : outcome B :=
  match m with
  | Returns a => k a
  | Panics p => Panics p
  end.

Declare Scope outcome_scope.
Delimit Scope outcome_scope with outcome.
Notation "'do!' x ← m ; k" := (obind m (fun x => k))
  (at level 10, x pattern, m at level 100, k at level 200) : outcome_scope.
Local Open Scope outcome_scope.

(** ** Errors

    [errors.New] and [fmt.Errorf] without [%w] give a plain error;
    [errutil.Error{Code, Msg}] carries a canonical code; [fmt.Errorf] with
    [%w] applied to a non-nil error wraps it, and [errors.Unwrap] gives
    the wrapped error back. *)

Inductive error : Type :=
| errors_New (msg : string)
| errutil_Error (Code Msg : string)
| fmt_wrapError (msg : string) (err : error).

(** [fmt.Errorf(format, ..., err)] with one [%w] verb: a nil operand is
    not an error value, so nothing is wrapped. *)
Definition fmt_Errorf_w (format : string) (err : option error) : error :=
  match err with
  | Some e => fmt_wrapError format e
  | None => errors_New format
  end.

Definition errors_Unwrap (e : error) : option error :=
  match e with
  | fmt_wrapError _ w => Some w
  | _ => None
  end.

(** The code found by [errors.As(err, &errutil.Error{})]: the code of the
    first [errutil.Error] on the unwrap chain. *)
Fixpoint error_code (e : error) : option string :=
  match e with
  | errors_New _ => None
  | errutil_Error c _ => Some c
  | fmt_wrapError _ w => error_code w
  end.

Definition InferencePoolResourceExhausted : string := "InferencePoolResourceExhausted".
Definition KVCacheIndexerUnavailable : string := "KVCacheIndexerUnavailable".

(** ** Data model *)

Record NamespacedName : Type := mkNamespacedName {
  Namespace : string;
  Name : string
}.

Global Instance NamespacedName_eq_dec : EqDecision NamespacedName.
Proof. solve_decision. Defined.

Global Instance NamespacedName_countable : Countable NamespacedName.
Proof.
  refine (inj_countable' (λ n, (Namespace n, Name n))
                         (λ p, mkNamespacedName p.1 p.2) _).
  by intros [].
Defined.

(** [types.NamespacedName.String]: namespace, separator, name. *)
Definition NamespacedName_String (n : NamespacedName) : string :=
  Namespace n ++ "/" ++ Name n.

Record Pod : Type := mkPod {
  pod_NamespacedName : NamespacedName;
  Address : string
}.

Record Metrics : Type := mkMetrics {
  QueueDepth : Z;
  KVCacheUtilization : float;
  ActiveLoRAAdapters : list string;
  MaxLoRASlots : Z
}.

(** The scheduler's view of a pod: identity and a metrics snapshot. *)
Record PodMetrics : Type := mkPodMetrics {
  pm_Pod : Pod;
  pm_Metrics : Metrics
}.

Definition pm_NamespacedName (p : PodMetrics) : NamespacedName :=
  pod_NamespacedName (pm_Pod p).

Record LLMRequest : Type := mkLLMRequest {
  Model : string;
  Prompt : string;
  SessionID : string;
  Critical : bool
}.

Record Context : Type := mkContext {
  Req : option LLMRequest;
  PodsSnapshot : list PodMetrics
}.

Record InferencePool : Type := mkInferencePool {
  pool_Name : string;
  pool_Namespace : string;
  pool_Selector : gmap string string
}.

Record InferenceModel : Type := mkInferenceModel {
  im_Name : string;
  im_Namespace : string;
  im_CreationTimestamp : Z;
  im_ModelName : string
}.


(** ** Datastore (pkg/epp/datastore/datastore.go) *)

(** A [backendmetrics.PodMetrics] handle: the pod it was created for and
    its most recent metrics. *)
Record PodMetricsHandle : Type := mkHandle {
  h_Pod : Pod;
  h_Metrics : Metrics
}.

Record sessionInfo : Type := mkSessionInfo {
  si_pod : option Pod;
  si_lru : Z
}.

(** The session table is a [sync.Map] and holds values of type [any]:
    the code type-asserts them to [*sessionInfo]. *)
Inductive sessionValue : Type :=
| SessionInfoValue (si : sessionInfo)
| OtherValue.

Record datastore : Type := mkDatastore {
  pool : option InferencePool;
  models : gmap string InferenceModel;
  pods : gmap NamespacedName PodMetricsHandle;
  sessions : gmap string sessionValue
}.

Module Datastore.

(** [NewDatastore]: no pool, empty maps. *)
Definition NewDatastore : datastore :=
  {| pool := None; models := ∅; pods := ∅; sessions := ∅ |}.

Definition Clear (ds : datastore) : datastore :=
  {| pool := None;
     models := ∅;
     pods := ∅;
     sessions := sessions ds |}.

Definition PoolSet (p : option InferencePool) (ds : datastore) : datastore :=
  {| pool := p; models := models ds; pods := pods ds; sessions := sessions ds |}.

Definition PoolHasSynced (ds : datastore) : bool :=
  match pool ds with
  | Some _ => true
  | None => false
  end.

Definition errPoolNotSynced : error :=
  errors_New "InferencePool is not initialized in data store".

Definition PoolGet (ds : datastore) : option InferencePool * option error :=
  if PoolHasSynced ds then (pool ds, None) else (None, Some errPoolNotSynced).

(** [stripLabelKeyAliasFromLabelMap]: copies the map entry by entry,
    converting the key and value types (both are strings). *)
Definition stripLabelKeyAliasFromLabelMap (labels : gmap string string)
  : gmap string string :=
  map_fold (λ k v outMap, <[k := v]> outMap) ∅ labels.

(** [labels.SelectorFromSet(s).Matches(set)] of apimachinery: every
    key of the selector is present in the set with the same value. *)
Definition Selector_Matches (selector podSet : gmap string string) : bool :=
  forallb (λ kv, bool_decide (podSet !! kv.1 = Some kv.2)) (map_to_list selector).

Definition selectorFromInferencePoolSelector (selector : gmap string string)
  : gmap string string :=
  stripLabelKeyAliasFromLabelMap selector.

Definition PoolLabelsMatch (podLabels : gmap string string) (ds : datastore)
  : outcome bool :=
  match pool ds with
  | None => Panics NilDereference
  | Some p =>
      let poolSelector := selectorFromInferencePoolSelector (pool_Selector p) in
      Returns (Selector_Matches poolSelector podLabels)
  end.

(** [metav1.Time.Before]: strictly earlier. *)
Definition Time_Before (t u : Z) : bool := t <? u.

Definition ModelSetIfOlder (infModel : InferenceModel) (ds : datastore)
  : datastore * bool :=
  let install :=
    ({| pool := pool ds;
        models := <[im_ModelName infModel := infModel]> (models ds);
        pods := pods ds;
        sessions := sessions ds |}, true) in
  match models ds !! im_ModelName infModel with
  | Some existing =>
      let diffObj :=
        negb (String.eqb (im_Name infModel) (im_Name existing))
        || negb (String.eqb (im_Namespace infModel) (im_Namespace existing)) in
      if diffObj && Time_Before (im_CreationTimestamp existing)
                                (im_CreationTimestamp infModel)
      then (ds, false)
      else install
  | None => install
  end.

Definition ModelGet (modelName : string) (ds : datastore) : option InferenceModel :=
  models ds !! modelName.

Definition PodList (predicate : PodMetricsHandle → bool) (ds : datastore)
  : list PodMetricsHandle :=
  List.filter predicate (map_to_list (pods ds)).*2.

Definition PodGetAll (ds : datastore) : list PodMetricsHandle :=
  PodList (λ _, true) ds.

(** The world seen by [PodDelete]: the store, and the handles on which
    [StopRefreshLoop] has been invoked, in order. *)
Record world : Type := mkWorld {
  store : datastore;
  stopRefreshLoopCalls : list PodMetricsHandle
}.

(** [sync.Map.LoadAndDelete]: the previous value, if any, and the map
    without the key. *)
Definition LoadAndDelete {V : Type} (key : NamespacedName)
    (m : gmap NamespacedName V) : option V * gmap NamespacedName V :=
  (m !! key, delete key m).

Definition PodDelete (namespacedName : NamespacedName) (w : world) : world :=
  let ds := store w in
  let '(v, pods') := LoadAndDelete namespacedName (pods ds) in
  let ds' := {| pool := pool ds; models := models ds; pods := pods';
                sessions := sessions ds |} in
  match v with
  | Some pmr =>
      {| store := ds'; stopRefreshLoopCalls := stopRefreshLoopCalls w ++ [pmr] |}
  | None =>
      {| store := ds'; stopRefreshLoopCalls := stopRefreshLoopCalls w |}
  end.

Definition SetPodForSession (now : Z) (sessionID : string) (p : option Pod)
    (ds : datastore) : datastore :=
  {| pool := pool ds; models := models ds; pods := pods ds;
     sessions := <[sessionID := SessionInfoValue {| si_pod := p; si_lru := now |}]>
                   (sessions ds) |}.

Definition GetPodForSession (sessionID : string) (ds : datastore) : option Pod :=
  match sessions ds !! sessionID with
  | Some (SessionInfoValue si) => si_pod si
  | _ => None
  end.

(** *** The rest of the registry and pod operations *)

(** [ModelDelete], with the order in which [range ds.models] yields the
    entries as the argument [order]: the first entry of that
    namespaced name is deleted, under the key [m.Spec.ModelName], and
    returned. *)
Definition ModelDelete_range (order : list (string * InferenceModel))
    (namespacedName : NamespacedName) (ds : datastore)
  : datastore * option InferenceModel :=
  match List.find
          (λ km : string * InferenceModel,
             String.eqb (im_Name km.2) (Name namespacedName)
             && String.eqb (im_Namespace km.2) (Namespace namespacedName))
          order with
  | Some (_, m) =>
      ({| pool := pool ds; models := delete (im_ModelName m) (models ds);
          pods := pods ds; sessions := sessions ds |}, Some m)
  | None => (ds, None)
  end.

Definition ModelDelete (namespacedName : NamespacedName) (ds : datastore)
  : datastore * option InferenceModel :=
  ModelDelete_range (map_to_list (models ds)) namespacedName ds.

Definition ModelGetAll (ds : datastore) : list InferenceModel :=
  (map_to_list (models ds)).*2.

(** An item of the list the API client returns: the model, the pool it
    refers to and whether its deletion timestamp is zero. *)
Record ListedModel : Type := mkListedModel {
  lm_Model : InferenceModel;
  lm_PoolRefName : string;
  lm_DeletionTimestampIsZero : bool
}.

(** [client.List] for models: the field value and the namespace asked
    for give the items, or an error. An external service, a parameter. *)
Definition ModelClient : Type :=
  string → string → list ListedModel * option error.

(** One turn of the loop of [ModelResync] over [models.Items]. *)
Definition resyncStep (poolName modelName : string)
    (oldest : option InferenceModel) (m : ListedModel) : option InferenceModel :=
  if negb (String.eqb (im_ModelName (lm_Model m)) modelName)
     || negb (String.eqb (lm_PoolRefName m) poolName)
     || negb (lm_DeletionTimestampIsZero m)
  then oldest
  else
    match oldest with
    | None => Some (lm_Model m)
    | Some o =>
        if Time_Before (im_CreationTimestamp (lm_Model m)) (im_CreationTimestamp o)
        then Some (lm_Model m)
        else oldest
    end.

Definition ModelResync (c : ModelClient) (modelName : string) (ds : datastore)
  : outcome (datastore * (bool * option error)) :=
  match pool ds with
  | None => Panics NilDereference
  | Some p =>
      let '(items, err) := c modelName (pool_Namespace p) in
      match err with
      | Some e =>
          Returns (ds, (false,
            Some (fmt_Errorf_w "listing models that match the modelName %s: %w"
                               (Some e))))
      | None =>
          if (length items =? 0)%nat then Returns (ds, (false, None))
          else
            match fold_left (resyncStep (pool_Name p) modelName) items None with
            | None => Returns (ds, (false, None))
            | Some oldest =>
                Returns ({| pool := pool ds;
                            models := <[modelName := oldest]> (models ds);
                            pods := pods ds; sessions := sessions ds |},
                         (true, None))
            end
      end
  end.

(** A pod object of the cluster, as far as the datastore reads it. *)
Record corev1_Pod : Type := mkCorePod {
  cp_Name : string;
  cp_Namespace : string;
  cp_PodIP : string;
  cp_Ready : bool
}.

(** The functions of the metrics and pod utility packages that the
    datastore calls; they are outside the sources and are parameters:
    the factory of handles, the update of the pod of a handle and the
    readiness test. *)
Record Backend : Type := mkBackend {
  NewPodMetrics : corev1_Pod → PodMetricsHandle;
  UpdatePod : corev1_Pod → PodMetricsHandle → PodMetricsHandle;
  IsPodReady : corev1_Pod → bool
}.

Definition cp_NamespacedName (pod : corev1_Pod) : NamespacedName :=
  {| Namespace := cp_Namespace pod; Name := cp_Name pod |}.

(** The handle is an object shared with the map: [pm.UpdatePod(pod)]
    changes the stored value. *)
Definition PodUpdateOrAddIfNotExist (b : Backend) (pod : corev1_Pod)
    (ds : datastore) : datastore * bool :=
  let namespacedName := cp_NamespacedName pod in
  let '(pm, ok) :=
    match pods ds !! namespacedName with
    | None => (NewPodMetrics b pod, false)
    | Some existing => (existing, true)
    end in
  ({| pool := pool ds; models := models ds;
      pods := <[namespacedName := UpdatePod b pod pm]> (pods ds);
      sessions := sessions ds |}, ok).

(** [client.List] for pods: the label selector and the namespace asked
    for give the items, or an error. *)
Definition PodClient : Type :=
  gmap string string → string → list corev1_Pod * option error.

(** Reading a Go [map[string]bool]: false when absent. *)
Definition active (activePods : gmap string bool) (name : string) : bool :=
  default false (activePods !! name).

(** One turn of the first loop of [PodResyncAll]. *)
Definition resyncAddStep (b : Backend)
    (acc : gmap string bool * datastore) (pod : corev1_Pod)
  : gmap string bool * datastore :=
  if IsPodReady b pod then
    (<[cp_Name pod := true]> acc.1, (PodUpdateOrAddIfNotExist b pod acc.2).1)
  else acc.

(** [deleteFn] of [PodResyncAll], on one entry of the pod map. *)
Definition resyncDeleteStep (activePods : gmap string bool) (w : world)
    (kv : NamespacedName * PodMetricsHandle) : world :=
  let pm := kv.2 in
  if active activePods (Name (pod_NamespacedName (h_Pod pm))) then w
  else PodDelete (pod_NamespacedName (h_Pod pm)) w.

(** [PodResyncAll]; [Range] visits the entries the pod map holds after
    the first loop. *)
Definition PodResyncAll (b : Backend) (ctrlClient : PodClient)
    (poolArg : option InferencePool) (w : world) : outcome world :=
  match poolArg with
  | None => Panics NilDereference
  | Some p =>
      let '(items, err) :=
        ctrlClient (selectorFromInferencePoolSelector (pool_Selector p))
                   (pool_Namespace p) in
      match err with
      | Some _ => Returns w
      | None =>
          let '(activePods, ds1) :=
            fold_left (resyncAddStep b) items (∅, store w) in
          let w1 := {| store := ds1;
                       stopRefreshLoopCalls := stopRefreshLoopCalls w |} in
          Returns (fold_left (resyncDeleteStep activePods)
                             (map_to_list (pods ds1)) w1)
      end
  end.

(** *** Session sweep *)

Definition minDuration : Z := - 2 ^ 63.
Definition maxDuration : Z := 2 ^ 63 - 1.

(** [time.Time.Sub]: the difference in nanoseconds, saturated to the
    range of [time.Duration]. Instants are nanosecond counts. *)
Definition Time_Sub (t u : Z) : Z :=
  if t - u <? minDuration then minDuration
  else if maxDuration <? t - u then maxDuration
  else t - u.

Definition Minute : Z := 60 * 1000000000.
Definition sessionKeepAliveTime : Z := 60 * Minute.
Definition sessionKeepAliveCheckFrequency : Z := 15 * Minute.

(** The callback of [ds.sessions.Range] in [cleanupSessions]. *)
Definition sweepStep (now sessionKeepAlive : Z)
    (table : gmap string sessionValue) (entry : string * sessionValue)
  : gmap string sessionValue :=
  match entry.2 with
  | SessionInfoValue si =>
      if sessionKeepAlive <? Time_Sub now (si_lru si)
      then delete entry.1 table
      else table
  | OtherValue => delete entry.1 table
  end.

(** What [cleanupSessions] does when the ticker fires at [now]. *)
Definition cleanupSessions_tick (now sessionKeepAlive : Z) (ds : datastore)
  : datastore :=
  {| pool := pool ds; models := models ds; pods := pods ds;
     sessions := fold_left (sweepStep now sessionKeepAlive)
                           (map_to_list (sessions ds)) (sessions ds) |}.

End Datastore.

(** The registry entry that makes [ModelSetIfOlder] keep what it has:
    another namespaced object, created strictly earlier. *)
Definition older_other (m : InferenceModel) (ds : datastore) : Prop :=
  ∃ existing,
    models ds !! im_ModelName m = Some existing
    ∧ (im_Name m ≠ im_Name existing ∨ im_Namespace m ≠ im_Namespace existing)
    ∧ im_CreationTimestamp existing < im_CreationTimestamp m.

(** ** Machine integers

    The usage counters of the LRU picker are Go [int]s (64 bits on
    amd64, the target named in the Dockerfile); addition wraps around. *)

Definition int_min : Z := - 2 ^ 63.
Definition int_max : Z := 2 ^ 63 - 1.

Definition is_int (z : Z) : Prop := int_min ≤ z ≤ int_max.

Definition int_wrap (z : Z) : Z := (z + 2 ^ 63) `mod` 2 ^ 64 - 2 ^ 63.

Definition int_add (a b : Z) : Z := int_wrap (a + b).

(** ** Pickers (pkg/epp/scheduling/plugins/picker) *)

Record Result (A : Type) : Type := mkResult { TargetPod : A }.
Arguments mkResult {A} _.
Arguments TargetPod {A} _.

(** [rand.Intn(n)]: panics when [n <= 0], otherwise some index below
    [n]. The draw of the generator is the argument [r]; every index
    below [n] is the result for some draw. *)
Definition rand_Intn (r : nat) (n : nat) : outcome nat :=
  match n with
  | O => Panics IntnNonPositive
  | S _ => Returns (r `mod` n)%nat
  end.

(** Indexing a slice: out of range panics. *)
Definition index {A : Type} (l : list A) (i : nat) : outcome A :=
  match l !! i with
  | Some x => Returns x
  | None => Panics IndexOutOfRange
  end.

Module RandomPicker.

Definition Pick {A : Type} (r : nat) (pods : list A) : outcome (Result A) :=
  do! i ← rand_Intn r (length pods);
  do! p ← index pods i;
  Returns (mkResult p).

End RandomPicker.

Record ScoredPod : Type := mkScoredPod {
  sp_Pod : Pod;
  sp_Score : float
}.

Definition sp_NamespacedName (p : ScoredPod) : NamespacedName :=
  pod_NamespacedName (sp_Pod p).

(** Reading a Go [map[K]int] at a key: the zero value when absent. *)
Definition usage (podsCache : gmap NamespacedName Z) (k : NamespacedName) : Z :=
  default 0 (podsCache !! k).

Module LRUPicker.

(** The variables of the loop of [Pick]. *)
Record loop : Type := mkLoop {
  podsCache : gmap NamespacedName Z;
  minUsages : Z;
  bestPods : list ScoredPod
}.

Definition step (st : loop) (pod : ScoredPod) : loop :=
  let key := sp_NamespacedName pod in
  let '(podUsages, cache) :=
    match podsCache st !! key with
    | Some u => (u, podsCache st)
    | None => (0, <[key := 0]> (podsCache st))
    end in
  if podUsages =? minUsages st then
    {| podsCache := cache; minUsages := minUsages st;
       bestPods := (bestPods st ++ [pod])%list |}
  else if podUsages <? minUsages st then
    {| podsCache := cache; minUsages := podUsages; bestPods := [pod] |}
  else
    {| podsCache := cache; minUsages := minUsages st; bestPods := bestPods st |}.

Definition increment (cache : gmap NamespacedName Z) (k : NamespacedName)
  : gmap NamespacedName Z :=
  <[k := int_add (usage cache k) 1]> cache.

(** [Pick] on the usage map [cache0]: the result and the usage map
    afterwards. *)
Definition Pick (r : nat) (cache0 : gmap NamespacedName Z)
    (scoredPods : list ScoredPod)
  : outcome (Result ScoredPod * gmap NamespacedName Z) :=
  let st := fold_left step scoredPods
              {| podsCache := cache0; minUsages := 100000; bestPods := [] |} in
  match bestPods st with
  | [best] =>
      Returns (mkResult best, increment (podsCache st) (sp_NamespacedName best))
  | _ =>
      do! res ← RandomPicker.Pick r (bestPods st);
      Returns (res, increment (podsCache st) (sp_NamespacedName (TargetPod res)))
  end.

End LRUPicker.

(** What the loop of [Pick] maintains after the candidates [seen],
    started on the usage map [cache0]. *)
Definition lru_inv (cache0 : gmap NamespacedName Z) (seen : list ScoredPod)
    (st : LRUPicker.loop) : Prop :=
  (∀ k, usage (LRUPicker.podsCache st) k = usage cache0 k)
  ∧ (∀ p, p ∈ seen → is_Some (LRUPicker.podsCache st !! sp_NamespacedName p))
  ∧ LRUPicker.minUsages st ≤ 100000
  ∧ (∀ p, p ∈ seen →
       LRUPicker.minUsages st ≤ usage cache0 (sp_NamespacedName p))
  ∧ (LRUPicker.minUsages st = 100000
     ∨ ∃ p, p ∈ seen ∧ usage cache0 (sp_NamespacedName p) = LRUPicker.minUsages st)
  ∧ LRUPicker.bestPods st
    = List.filter
        (λ p, usage cache0 (sp_NamespacedName p) =? LRUPicker.minUsages st) seen.

(** ** Scorers (pkg/epp/scheduling/scorers) *)

(** [PodScore]: the zero value has score [0] and a nil pod. *)
Record PodScore : Type := mkPodScore {
  Score : float;
  ps_Pod : option PodMetrics
}.

Definition PodScore_zero : PodScore := {| Score := 0; ps_Pod := None |}.

Definition set_Score (s : float) (ps : PodScore) : PodScore :=
  {| Score := s; ps_Pod := ps_Pod ps |}.

Definition set_Pod (p : PodMetrics) (ps : PodScore) : PodScore :=
  {| Score := Score ps; ps_Pod := Some p |}.

Module SessionAffinityScorer.

(** The loop over [pods], from index [i] on: [scoredPods[i].Score = 1.0]
    when the names match, then [scoredPods[i].Pod = pod]. *)
Fixpoint scoreLoop (selectedPodFullName : string) (i : nat)
    (pods : list PodMetrics) (scoredPods : list PodScore) : list PodScore :=
  match pods with
  | [] => scoredPods
  | pod :: rest =>
      let scoredPods1 :=
        if String.eqb selectedPodFullName
                      (NamespacedName_String (pm_NamespacedName pod))
        then alter (set_Score 1) i scoredPods
        else scoredPods in
      scoreLoop selectedPodFullName (S i) rest (alter (set_Pod pod) i scoredPods1)
  end.

Definition ScoreTargets (ds : datastore) (ctx : Context) (pods : list PodMetrics)
  : outcome (list PodScore * option error) :=
  let scoredPods := replicate (length pods) PodScore_zero in
  match Req ctx with
  | None => Panics NilDereference
  | Some req =>
      let selectedPodFullName :=
        if negb (String.eqb (SessionID req) "") then
          match Datastore.GetPodForSession (SessionID req) ds with
          | Some selectedPod =>
              NamespacedName_String (pod_NamespacedName selectedPod)
          | None => ""
          end
        else "" in
      Returns (scoreLoop selectedPodFullName 0 pods scoredPods, None)
  end.

End SessionAffinityScorer.

(** The entry the scorer computes for one pod, given the rendered name
    of the pod of the session ([""] when there is none). *)
Definition affinityEntry (selectedPodFullName : string) (pod : PodMetrics)
  : PodScore :=
  {| Score := if String.eqb selectedPodFullName
                            (NamespacedName_String (pm_NamespacedName pod))
              then 1%float else 0%float;
     ps_Pod := Some pod |}.

(** Kubernetes namespaces are DNS labels: they hold no separator. *)
Fixpoint has_separator (s : string) : bool :=
  match s with
  | EmptyString => false
  | String c rest => Ascii.eqb c "/"%char || has_separator rest
  end.

(** One entry of the answer of the external indexer. *)
Record IndexerPodScore : Type := mkIndexerPodScore {
  ips_Name : string;
  ips_Score : float
}.

(** [kvcache.Indexer.GetPodScores(ctx, prompt, model, podIdentifiers)]:
    an external service, a parameter of the model. *)
Definition Indexer : Type :=
  string → string → list string → list IndexerPodScore * option error.

Module KVCacheAwareScorer.

(** One turn of the loop of [podMetricsToKeysAndMap]. *)
Definition keysStep (acc : list string * gmap string PodMetrics)
    (pod : option PodMetrics) : list string * gmap string PodMetrics :=
  match pod with
  | None => acc
  | Some p =>
      let podIdentifier := Address (pm_Pod p) in
      ((acc.1 ++ [podIdentifier])%list, <[podIdentifier := p]> acc.2)
  end.

Definition podMetricsToKeysAndMap (pods : list (option PodMetrics))
  : list string * gmap string PodMetrics :=
  fold_left keysStep pods ([], ∅).

(** One turn of the loop over the scores of the indexer. *)
Definition scoreStep (podIdentifierToPod : gmap string PodMetrics)
    (scoredPods : list PodScore) (pod : IndexerPodScore) : list PodScore :=
  match podIdentifierToPod !! ips_Name pod with
  | None => scoredPods
  | Some podMetrics =>
      (scoredPods
         ++ [{| Score := ips_Score pod; ps_Pod := Some podMetrics |}])%list
  end.

Definition scoreLoop (podIdentifierToPod : gmap string PodMetrics)
    (scores : list IndexerPodScore) : list PodScore :=
  fold_left (scoreStep podIdentifierToPod) scores [].

Definition ScoreTargets (kvCacheIndexer : Indexer) (ctx : Context)
    (pods : list (option PodMetrics)) : list PodScore * option error :=
  match Req ctx with
  | None => ([], Some (errors_New "request (ctx.Req) is nil, cannot score pods"))
  | Some req =>
      let '(podIdentifiers, podIdentifierToPod) := podMetricsToKeysAndMap pods in
      if (length podIdentifiers =? 0)%nat then ([], None)
      else
        let '(scores, err) :=
          kvCacheIndexer (Prompt req) (Model req) podIdentifiers in
        match err with
        | Some e => ([], Some (fmt_Errorf_w "failed to get pod scores: %w" (Some e)))
        | None => (scoreLoop podIdentifierToPod scores, None)
        end
  end.

End KVCacheAwareScorer.

(** ** Filters

    The scheduler file of the source builds its filter trees from
    [basicFilter], [decisionTreeFilter], [toFilterFunc] and the pod
    predicates, whose definitions are in a file that is not part of the
    sources at hand. *)

Record Config : Type := mkConfig {
  KVCacheThreshold : float;
  QueueThresholdCritical : Z;
  QueueingThresholdLoRA : Z;
  LoraAffinityThreshold : float
}.

(** The values used when the environment sets nothing. *)
Definition defaultConfig : Config :=
  {| KVCacheThreshold := 0.8;
     QueueThresholdCritical := 5;
     QueueingThresholdLoRA := 128;
     LoraAffinityThreshold := 0.999 |}.

Definition filterFunc : Type :=
  Context → list PodMetrics → list PodMetrics * option error.

Definition podPredicate : Type := option LLMRequest → PodMetrics → bool.

(** Modelled from the spec: the type of filters, missing from the
    sources. A filter is atomic (a name and a function) or a decision
    tree node with a current filter and the children [nextOnSuccess],
    [nextOnFailure] and [nextOnSuccessOrFailure]. *)
Inductive Filter : Type :=
| basicFilter (name : string) (filter : filterFunc)
| decisionTreeFilter (current : Filter)
    (nextOnSuccess nextOnFailure nextOnSuccessOrFailure : option Filter).

(** Modelled from the spec: [Filter.Filter], missing from the sources.
    A basic filter applies its function. A tree node runs [current]; a
    non-empty result is a success and anything else a failure; the child
    for that outcome ([nextOnSuccessOrFailure] when the specific one is
    absent) runs on the filtered pods after a success and on the input
    pods after a failure; without such a child the node returns the
    output of [current]. *)
Fixpoint Filter_Filter (f : Filter) (ctx : Context) (pods : list PodMetrics)
  : list PodMetrics * option error :=
  match f with
  | basicFilter _ fn => fn ctx pods
  | decisionTreeFilter current onSuccess onFailure onEither =>
      let '(filtered, err) := Filter_Filter current ctx pods in
      match filtered with
      | _ :: _ =>
          match onSuccess, onEither with
          | Some next, _ => Filter_Filter next ctx filtered
          | None, Some next => Filter_Filter next ctx filtered
          | None, None => (filtered, err)
          end
      | [] =>
          match onFailure, onEither with
          | Some next, _ => Filter_Filter next ctx pods
          | None, Some next => Filter_Filter next ctx pods
          | None, None => (filtered, err)
          end
      end
  end.

(** Modelled from the spec: [toFilterFunc], missing from the sources.
    The sub-sequence of the pods that satisfy the predicate, in order;
    empty without error when none does. *)
Definition toFilterFunc (pp : podPredicate) : filterFunc :=
  λ ctx pods, (List.filter (pp (Req ctx)) pods, None).

(** Modelled from the spec: the pod predicates, missing from the
    sources. [QueueDepth ≤ threshold], [KVCacheUtilization ≤ threshold],
    and conjunction. *)
Definition queueThresholdPredicate (queueThreshold : Z) : podPredicate :=
  λ _ pod, QueueDepth (pm_Metrics pod) <=? queueThreshold.

Definition kvCacheThresholdPredicate (kvCacheThreshold : float) : podPredicate :=
  λ _ pod, (KVCacheUtilization (pm_Metrics pod) <=? kvCacheThreshold)%float.

Definition podPredicate_and (p q : podPredicate) : podPredicate :=
  λ req pod, p req pod && q req pod.

(** Modelled from the spec: [lowQueueFilter], missing from the sources. *)
Definition lowQueueFilter (config : Config) : Filter :=
  basicFilter "low queueing filter"
    (toFilterFunc (queueThresholdPredicate (QueueThresholdCritical config))).

Definition Z_min_list (x : Z) (l : list Z) : Z := fold_left Z.min l x.

Definition float_min_list (x : float) (l : list float) : float :=
  fold_left (λ m y, if (y <? m)%float then y else m) l x.

(** Modelled from the spec: [leastQueueFilter], missing from the
    sources. Keeps the pods whose queue depth is the minimum of the
    input. *)
Definition leastQueueFilter : Filter :=
  basicFilter "least queuing"
    (λ _ pods,
       match pods with
       | [] => ([], None)
       | p :: rest =>
           let least := Z_min_list (QueueDepth (pm_Metrics p))
                          (map (λ q, QueueDepth (pm_Metrics q)) rest) in
           (List.filter (λ q, QueueDepth (pm_Metrics q) =? least) pods, None)
       end).

(** Modelled from the spec: [leastKVCacheFilter], missing from the
    sources. Keeps the pods whose KV-cache utilization is the minimum of
    the input. *)
Definition leastKVCacheFilter : Filter :=
  basicFilter "least KV cache percent"
    (λ _ pods,
       match pods with
       | [] => ([], None)
       | p :: rest =>
           let least := float_min_list (KVCacheUtilization (pm_Metrics p))
                          (map (λ q, KVCacheUtilization (pm_Metrics q)) rest) in
           (List.filter (λ q, (KVCacheUtilization (pm_Metrics q) =? least)%float)
                        pods, None)
       end).

(** Modelled from the spec: [loRAAffinityFilter], missing from the
    sources. Keeps the pods that have the requested adapter loaded or a
    free adapter slot; the identity when the request names no adapter.
    How a request names its adapter is the parameter [requestedLoRA]. *)
Definition loRAAffinityPredicate (requestedLoRA : LLMRequest → option string)
  : podPredicate :=
  λ req pod,
    match req ≫= requestedLoRA with
    | None => true
    | Some adapter =>
        bool_decide (adapter ∈ ActiveLoRAAdapters (pm_Metrics pod))
        || (Z.of_nat (length (ActiveLoRAAdapters (pm_Metrics pod)))
            <? MaxLoRASlots (pm_Metrics pod))
    end.

Definition loRAAffinityFilter (requestedLoRA : LLMRequest → option string)
  : Filter :=
  basicFilter "affinity LoRA" (toFilterFunc (loRAAffinityPredicate requestedLoRA)).

(** *** The filter trees of the scheduler (scheduler.go) *)

Definition leaf (f : Filter) : Filter := decisionTreeFilter f None None None.

Definition lowLatencyFilter (config : Config)
    (requestedLoRA : LLMRequest → option string) : Filter :=
  decisionTreeFilter (lowQueueFilter config)
    (Some (decisionTreeFilter (loRAAffinityFilter requestedLoRA) None None
       (Some (decisionTreeFilter leastQueueFilter None None
          (Some (leaf leastKVCacheFilter))))))
    (Some (decisionTreeFilter leastQueueFilter None None
       (Some (decisionTreeFilter (loRAAffinityFilter requestedLoRA) None None
          (Some (leaf leastKVCacheFilter))))))
    None.

Definition hasCapacityFilter (config : Config) : Filter :=
  basicFilter "has capacity for sheddable requests"
    (toFilterFunc
       (podPredicate_and (queueThresholdPredicate (QueueThresholdCritical config))
                         (kvCacheThresholdPredicate (KVCacheThreshold config)))).

Definition dropRequestFilter : Filter :=
  basicFilter "drop request"
    (λ _ _, ([], Some (errutil_Error InferencePoolResourceExhausted
                         "dropping request due to limited backend resources"))).

Definition sheddableRequestFilter (config : Config)
    (requestedLoRA : LLMRequest → option string) : Filter :=
  decisionTreeFilter (hasCapacityFilter config)
    (Some (lowLatencyFilter config requestedLoRA))
    (Some dropRequestFilter)
    None.

(** A filter keeps to the contract [pods' ⊆ pods] when each of its
    atomic filters does. *)
Fixpoint Filter_sound (f : Filter) : Prop :=
  match f with
  | basicFilter _ fn =>
      ∀ ctx pods p, p ∈ (fn ctx pods).1 → p ∈ pods
  | decisionTreeFilter current onSuccess onFailure onEither =>
      Filter_sound current
      ∧ match onSuccess with Some next => Filter_sound next | None => True end
      ∧ match onFailure with Some next => Filter_sound next | None => True end
      ∧ match onEither with Some next => Filter_sound next | None => True end
  end.

(** ** Scorer manager

    [scorers.ScorerManager] is used by the scheduler and is not part of
    the sources at hand. *)

Definition Scorer : Type :=
  Context → list PodMetrics → outcome (list PodScore * option error).

Record ScorerManager : Type := mkScorerManager {
  scorers : list (Scorer * float)
}.

Module ScorerManager.

Definition NewScorerManager : ScorerManager := {| scorers := [] |}.

Definition AddScorer (s : Scorer) (weight : float) (sm : ScorerManager)
  : ScorerManager :=
  {| scorers := (scorers sm ++ [(s, weight)])%list |}.

(** Modelled from the spec: running the scorers of the manager, missing
    from the sources. Each scorer runs on the pods; the first failure
    fails the whole call with that error. *)
Fixpoint runScorers (l : list (Scorer * float)) (ctx : Context)
    (pods : list PodMetrics)
  : outcome (list (list PodScore * float) * option error) :=
  match l with
  | [] => Returns ([], None)
  | (s, weight) :: rest =>
      do! out ← s ctx pods;
      match out.2 with
      | Some e => Returns ([], Some e)
      | None =>
          do! more ← runScorers rest ctx pods;
          Returns ((out.1, weight) :: more.1, more.2)
      end
  end.

(** The score a scorer gave to a pod: the sum of its entries for that
    pod; [0] when it omitted the pod. *)
Definition scoreOf (pod : PodMetrics) (scored : list PodScore) : float :=
  fold_left
    (λ (acc : float) (ps : PodScore),
       match ps_Pod ps with
       | Some p =>
           if bool_decide (pm_NamespacedName p = pm_NamespacedName pod)
           then (acc + Score ps)%float else acc
       | None => acc
       end)
    scored 0%float.

(** The weighted sum over the scorers. *)
Definition combinedScore (results : list (list PodScore * float))
    (pod : PodMetrics) : float :=
  fold_left
    (λ (acc : float) (r : list PodScore * float),
       (acc + r.2 * scoreOf pod r.1)%float)
    results 0%float.

Definition float_max_list (l : list float) : float :=
  fold_left (λ m y, if (m <? y)%float then y else m) l neg_infinity.

(** Modelled from the spec: [ScorerManager.ScoreTargets], missing from
    the sources. The pods whose combined score is the maximum are the
    candidates; the picker (random by default) chooses among them. *)
Definition ScoreTargets (r : nat) (sm : ScorerManager) (ctx : Context)
    (pods : list PodMetrics) : outcome (option PodMetrics * option error) :=
  do! run ← runScorers (scorers sm) ctx pods;
  match run.2 with
  | Some e => Returns (None, Some e)
  | None =>
      let best := float_max_list (map (combinedScore run.1) pods) in
      let candidates :=
        List.filter (λ p, (combinedScore run.1 p =? best)%float) pods in
      do! res ← RandomPicker.Pick r candidates;
      Returns (Some (TargetPod res), None)
  end.

End ScorerManager.

(** ** Scheduler (scheduler.go) *)

Record Scheduler : Type := mkScheduler {
  sched_datastore : datastore;
  criticalRequestFilter : Filter;
  sheddableRequestFilter_ : Filter;
  scorerMng : ScorerManager
}.

(** Modelled from the spec: [types.ToSchedulerPodMetrics], missing from
    the sources. The snapshot entry of a handle: its pod and its current
    metrics. *)
Definition ToSchedulerPodMetrics (l : list PodMetricsHandle) : list PodMetrics :=
  map (λ h, {| pm_Pod := h_Pod h; pm_Metrics := h_Metrics h |}) l.

Definition NewContext (req : option LLMRequest) (snapshot : list PodMetrics)
  : Context :=
  {| Req := req; PodsSnapshot := snapshot |}.

Module Scheduler.

(** [NewScheduler]: the session-affinity scorer with weight 1.0 and the
    KV-cache-aware scorer with weight 5.0; the indexer the latter talks
    to is the parameter [kvCacheIndexer]. *)
Definition NewScheduler (config : Config)
    (requestedLoRA : LLMRequest → option string)
    (kvCacheIndexer : Indexer) (ds : datastore) : Scheduler :=
  let sMgr :=
    ScorerManager.AddScorer
      (λ ctx pods,
         Returns (KVCacheAwareScorer.ScoreTargets kvCacheIndexer ctx (map Some pods)))
      5.0%float
      (ScorerManager.AddScorer (SessionAffinityScorer.ScoreTargets ds) 1.0%float
         ScorerManager.NewScorerManager) in
  {| sched_datastore := ds;
     criticalRequestFilter := lowLatencyFilter config requestedLoRA;
     sheddableRequestFilter_ := sheddableRequestFilter config requestedLoRA;
     scorerMng := sMgr |}.

(** [Schedule]: [r] is the draw of the random generator used by the
    picker during this call. *)
Definition Schedule (s : Scheduler) (r : nat) (req : option LLMRequest)
  : outcome (option PodMetrics * option error) :=
  let sCtx :=
    NewContext req (ToSchedulerPodMetrics (Datastore.PodGetAll (sched_datastore s))) in
  match req with
  | None => Panics NilDereference
  | Some rq =>
      let filter :=
        if Critical rq then criticalRequestFilter s
        else sheddableRequestFilter_ s in
      let '(pods, err) := Filter_Filter filter sCtx (PodsSnapshot sCtx) in
      if bool_decide (is_Some err) || (length pods =? 0)%nat then
        Returns (None,
                 Some (fmt_Errorf_w
                   "failed to apply filter, resulted %v pods, this should never happen: %w"
                   err))
      else
        do! sel ← ScorerManager.ScoreTargets r (scorerMng s) sCtx pods;
        match sel.2 with
        | Some e =>
            Returns (None, Some (fmt_Errorf_w "failed to apply scorers: %w" (Some e)))
        | None => Returns (sel.1, None)
        end
  end.

End Scheduler.

(** ** Definitions used in the statements below *)

(** An entry of the session table that the sweep removes: idle for more
    than [sessionKeepAlive], or not a session record. *)
Definition expired (now sessionKeepAlive : Z) (v : sessionValue) : bool :=
  match v with
  | SessionInfoValue si => sessionKeepAlive <? Datastore.Time_Sub now (si_lru si)
  | OtherValue => true
  end.

(** Every entry of the model registry is stored under its own model
    name. *)
Definition models_keyed (ds : datastore) : Prop :=
  ∀ k m, models ds !! k = Some m → im_ModelName m = k.

(** The model is the object of that namespaced name. *)
Definition same_object (namespacedName : NamespacedName) (m : InferenceModel)
  : Prop :=
  im_Name m = Name namespacedName ∧ im_Namespace m = Namespace namespacedName.

(** A listed model that [ModelResync] considers: of the model name asked
    for, of this pool, and not marked for deletion. *)
Definition liveb (poolName modelName : string) (lm : Datastore.ListedModel)
  : bool :=
  String.eqb (im_ModelName (Datastore.lm_Model lm)) modelName
  && String.eqb (Datastore.lm_PoolRefName lm) poolName
  && Datastore.lm_DeletionTimestampIsZero lm.

(** The operations on the registry, for statements about sequences. The
    delete carries the order in which the map is ranged over. *)
Inductive registryOp : Type :=
| OpPoolSet (p : option InferencePool)
| OpModelSetIfOlder (m : InferenceModel)
| OpModelDelete (order : list (string * InferenceModel)) (n : NamespacedName)
| OpModelResync (c : Datastore.ModelClient) (modelName : string)
| OpClear.

Definition runOp (op : registryOp) (ds : datastore) : outcome datastore :=
  match op with
  | OpPoolSet p => Returns (Datastore.PoolSet p ds)
  | OpModelSetIfOlder m => Returns (Datastore.ModelSetIfOlder m ds).1
  | OpModelDelete order n => Returns (Datastore.ModelDelete_range order n ds).1
  | OpModelResync c modelName =>
      do! r ← Datastore.ModelResync c modelName ds; Returns r.1
  | OpClear => Returns (Datastore.Clear ds)
  end.

Fixpoint runOps (ops : list registryOp) (ds : datastore) : outcome datastore :=
  match ops with
  | [] => Returns ds
  | op :: rest => do! ds1 ← runOp op ds; runOps rest ds1
  end.

(** Every handle of the pod map is stored under the namespaced name of
    its own pod. *)
Definition pods_keyed (ds : datastore) : Prop :=
  ∀ k h, pods ds !! k = Some h → pod_NamespacedName (h_Pod h) = k.

(** The update of a handle gives it the identity of the pod object. *)
Definition keeps_identity (b : Datastore.Backend) : Prop :=
  ∀ pod h,
    pod_NamespacedName (h_Pod (Datastore.UpdatePod b pod h))
    = Datastore.cp_NamespacedName pod.

(** Some listed pod is ready and has this name, in whatever namespace. *)
Definition ready_name (b : Datastore.Backend) (items : list Datastore.corev1_Pod)
    (name : string) : Prop :=
  ∃ pod, pod ∈ items ∧ Datastore.IsPodReady b pod = true
         ∧ Datastore.cp_Name pod = name.

(** The entries that the second loop of [PodResyncAll] removes. *)
Definition removed (activePods : gmap string bool)
    (l : list (NamespacedName * PodMetricsHandle))
  : list (NamespacedName * PodMetricsHandle) :=
  List.filter (λ kv, negb (Datastore.active activePods (Name kv.1))) l.

(** A backend for examples: a new handle has the identity and address
    of the pod object and zero metrics; an update replaces the pod of
    the handle; readiness is the ready condition. *)
Definition exampleBackend : Datastore.Backend :=
  {| Datastore.NewPodMetrics :=
       λ pod, mkHandle (mkPod (Datastore.cp_NamespacedName pod)
                              (Datastore.cp_PodIP pod))
                       (mkMetrics 0 0 [] 0);
     Datastore.UpdatePod :=
       λ pod h, mkHandle (mkPod (Datastore.cp_NamespacedName pod)
                                (Datastore.cp_PodIP pod))
                         (h_Metrics h);
     Datastore.IsPodReady := Datastore.cp_Ready |}.

(** [n] successive calls of [LRUPicker.Pick] on the same candidates, one
    draw of the generator each: the targets in order and the usage map
    at the end. *)
Fixpoint LRU_picks (rs : list nat) (cache : gmap NamespacedName Z)
    (scoredPods : list ScoredPod)
  : outcome (list ScoredPod * gmap NamespacedName Z) :=
  match rs with
  | [] => Returns ([], cache)
  | r :: rest =>
      do! out ← LRUPicker.Pick r cache scoredPods;
      do! more ← LRU_picks rest out.2 scoredPods;
      Returns (TargetPod out.1 :: more.1, more.2)
  end.

(** The last pod of the list that is not nil and has this address. *)
Definition lastWithAddress (address : string) (pods : list (option PodMetrics))
  : option PodMetrics :=
  fold_left
    (λ (found : option PodMetrics) (o : option PodMetrics),
       match o with
       | Some p => if String.eqb (Address (pm_Pod p)) address then Some p else found
       | None => found
       end)
    pods None.

(* more statement definitions *)

(** * Properties *)

(** ** Datastore *)

Section datastore_facts.

Import Datastore.

Lemma stripLabelKeyAliasFromLabelMap_id (labels : gmap string string) :
  stripLabelKeyAliasFromLabelMap labels = labels.
Proof.
  unfold stripLabelKeyAliasFromLabelMap.
  apply (map_fold_weak_ind (λ out m, out = m)); [done|].
  by intros i x m r _ ->.
Qed.

Lemma Selector_Matches_spec (selector podSet : gmap string string) :
  Selector_Matches selector podSet = true
  ↔ ∀ k v, selector !! k = Some v → podSet !! k = Some v.
Proof.
  unfold Selector_Matches. rewrite forallb_forall. split.
  - intros H k v Hkv.
    assert (Hin : In (k, v) (map_to_list selector)).
    { apply list_elem_of_In, elem_of_map_to_list, Hkv. }
    apply H in Hin. by apply bool_decide_eq_true in Hin.
  - intros H [k v] Hin. apply bool_decide_eq_true. simpl.
    apply H. by apply elem_of_map_to_list, list_elem_of_In.
Qed.

Lemma ModelSetIfOlder_kept (m : InferenceModel) (ds : datastore) :
  older_other m ds → ModelSetIfOlder m ds = (ds, false).
Proof.
  intros (existing & Hex & Hdiff & Hlt). unfold ModelSetIfOlder. rewrite Hex.
  assert (Hb : negb (String.eqb (im_Name m) (im_Name existing))
               || negb (String.eqb (im_Namespace m) (im_Namespace existing)) = true).
  { apply orb_true_iff.
    destruct Hdiff as [Hd|Hd]; [left|right];
      apply negb_true_iff, String.eqb_neq, Hd. }
  rewrite Hb. unfold Time_Before.
  by rewrite (proj2 (Z.ltb_lt _ _) Hlt).
Qed.

Lemma ModelSetIfOlder_installed (m : InferenceModel) (ds : datastore) :
  ¬ older_other m ds →
  ModelSetIfOlder m ds
  = ({| pool := pool ds; models := <[im_ModelName m := m]> (models ds);
        pods := pods ds; sessions := sessions ds |}, true).
Proof.
  intros Hno. unfold ModelSetIfOlder.
  destruct (models ds !! im_ModelName m) as [existing|] eqn:Hex; [|done].
  destruct (negb (String.eqb (im_Name m) (im_Name existing))
            || negb (String.eqb (im_Namespace m) (im_Namespace existing))) eqn:Hb;
    [|done].
  destruct (Time_Before (im_CreationTimestamp existing) (im_CreationTimestamp m))
    eqn:Ht; [|done].
  exfalso. apply Hno. exists existing. split; [done|]. split.
  - apply orb_true_iff in Hb.
    destruct Hb as [Hb|Hb]; [left|right];
      apply negb_true_iff, String.eqb_neq in Hb; exact Hb.
  - by apply Z.ltb_lt.
Qed.

Lemma older_other_dec (m : InferenceModel) (ds : datastore) :
  older_other m ds ∨ ¬ older_other m ds.
Proof.
  unfold older_other.
  destruct (models ds !! im_ModelName m) as [existing|] eqn:Hex.
  - destruct (decide (im_Name m = im_Name existing)) as [Hn|Hn];
      [destruct (decide (im_Namespace m = im_Namespace existing)) as [Hs|Hs]|];
      try (destruct (decide (im_CreationTimestamp existing
                             < im_CreationTimestamp m)) as [Hlt|Hlt]).
    all: try (left; exists existing; by eauto).
    all: right; intros (e & [= <-] & Hd & Ht); try done.
    destruct Hd; done.
  - right. intros (e & He & _). done.
Qed.

End datastore_facts.

(** C5. [ModelSetIfOlder m] installs [m] under [m.Spec.ModelName] and
    returns true, except when the entry under that name is another
    namespaced object created strictly earlier than [m]: then the store
    is left as it is and the call returns false. An incoming object with
    the namespace and name of the entry replaces it whatever the
    timestamps. The result is true exactly when the registry holds [m]
    under that name afterwards. *)
Theorem ModelSetIfOlder_spec (m : InferenceModel) (ds : datastore) :
  let ds' := (Datastore.ModelSetIfOlder m ds).1 in
  let ok := (Datastore.ModelSetIfOlder m ds).2 in
  (older_other m ds → ds' = ds ∧ ok = false)
  ∧ (¬ older_other m ds →
       models ds' = <[im_ModelName m := m]> (models ds)
       ∧ pool ds' = pool ds ∧ pods ds' = pods ds ∧ sessions ds' = sessions ds
       ∧ ok = true)
  ∧ (∀ existing,
       models ds !! im_ModelName m = Some existing →
       im_Name m = im_Name existing →
       im_Namespace m = im_Namespace existing →
       Datastore.ModelGet (im_ModelName m) ds' = Some m ∧ ok = true)
  ∧ (ok = true ↔ Datastore.ModelGet (im_ModelName m) ds' = Some m).
Proof.
  intros ds' ok. subst ds' ok.
  assert (Hinst : ¬ older_other m ds →
    models (Datastore.ModelSetIfOlder m ds).1 = <[im_ModelName m := m]> (models ds)
    ∧ pool (Datastore.ModelSetIfOlder m ds).1 = pool ds
    ∧ pods (Datastore.ModelSetIfOlder m ds).1 = pods ds
    ∧ sessions (Datastore.ModelSetIfOlder m ds).1 = sessions ds
    ∧ (Datastore.ModelSetIfOlder m ds).2 = true).
  { intros Hno. by rewrite (ModelSetIfOlder_installed m ds Hno). }
  split; [|split; [exact Hinst|split]].
  - intros Hk. by rewrite (ModelSetIfOlder_kept m ds Hk).
  - intros existing Hex Hn Hns.
    assert (Hno : ¬ older_other m ds).
    { intros (e & He & Hdiff & _). rewrite Hex in He. injection He as <-.
      destruct Hdiff as [Hd|Hd]; by apply Hd. }
    destruct (Hinst Hno) as (Hm & _ & _ & _ & Hok).
    split; [|done]. unfold Datastore.ModelGet. rewrite Hm.
    apply lookup_insert_eq.
  - destruct (older_other_dec m ds) as [Hk|Hno].
    + rewrite (ModelSetIfOlder_kept m ds Hk). simpl. split; [done|].
      destruct Hk as (existing & Hex & Hdiff & _).
      unfold Datastore.ModelGet. rewrite Hex. intros [= ->].
      destruct Hdiff as [Hd|Hd]; by destruct Hd.
    + destruct (Hinst Hno) as (Hm & _ & _ & _ & Hok).
      rewrite Hok. split; [|done]. intros _.
      unfold Datastore.ModelGet. rewrite Hm. apply lookup_insert_eq.
Qed.

(** Scenario: the same model name registered from two namespaces, the
    older first; the registry keeps the older object. *)
Example ModelSetIfOlder_oldest_wins :
  let m1 := mkInferenceModel "m" "ns1" 1 "model" in
  let m2 := mkInferenceModel "m" "ns2" 2 "model" in
  let ds1 := (Datastore.ModelSetIfOlder m1 Datastore.NewDatastore).1 in
  Datastore.ModelSetIfOlder m2 ds1 = (ds1, false)
  ∧ Datastore.ModelGet "model" ds1 = Some m1.
Proof. intros m1 m2 ds1. split; reflexivity. Qed.

(** C7. [Clear] unsets the pool, empties the model registry and the pod
    map, and leaves the session table as it was: every session id reads
    the same pod before and after. *)
Theorem Clear_spec (ds : datastore) :
  Datastore.PoolHasSynced (Datastore.Clear ds) = false
  ∧ models (Datastore.Clear ds) = ∅
  ∧ pods (Datastore.Clear ds) = ∅
  ∧ Datastore.PodGetAll (Datastore.Clear ds) = []
  ∧ (∀ name, Datastore.ModelGet name (Datastore.Clear ds) = None)
  ∧ ∀ sessionID,
      Datastore.GetPodForSession sessionID (Datastore.Clear ds)
      = Datastore.GetPodForSession sessionID ds.
Proof.
  split; [done|]. split; [done|]. split; [done|]. split; [|split].
  - unfold Datastore.PodGetAll, Datastore.PodList. simpl.
    by rewrite map_to_list_empty.
  - intros name. unfold Datastore.ModelGet. simpl. apply lookup_empty.
  - intros sessionID. reflexivity.
Qed.

Lemma PodDelete_absent (k : NamespacedName) (w : Datastore.world) :
  pods (Datastore.store w) !! k = None →
  Datastore.PodDelete k w
  = {| Datastore.store :=
         {| pool := pool (Datastore.store w); models := models (Datastore.store w);
            pods := pods (Datastore.store w);
            sessions := sessions (Datastore.store w) |};
       Datastore.stopRefreshLoopCalls := Datastore.stopRefreshLoopCalls w |}.
Proof.
  intros Hk. unfold Datastore.PodDelete, Datastore.LoadAndDelete.
  rewrite Hk. by rewrite (delete_id _ _ Hk).
Qed.

(** C8. For a key stored in the pod map, the first [PodDelete] removes
    the entry and invokes [StopRefreshLoop] on its handle, once; any
    number of further [PodDelete] calls on that key change neither the
    store nor the list of [StopRefreshLoop] invocations. *)
Theorem PodDelete_stops_once (k : NamespacedName) (pm : PodMetricsHandle)
    (w : Datastore.world) (n : nat) :
  pods (Datastore.store w) !! k = Some pm →
  let w1 := Datastore.PodDelete k w in
  pods (Datastore.store w1) = delete k (pods (Datastore.store w))
  ∧ pods (Datastore.store w1) !! k = None
  ∧ Datastore.stopRefreshLoopCalls w1 = (Datastore.stopRefreshLoopCalls w ++ [pm])%list
  ∧ Datastore.PodDelete k w1 = w1
  ∧ Nat.iter n (Datastore.PodDelete k) w1 = w1
  ∧ Datastore.stopRefreshLoopCalls (Nat.iter (S n) (Datastore.PodDelete k) w)
    = (Datastore.stopRefreshLoopCalls w ++ [pm])%list.
Proof.
  intros Hk w1.
  assert (H1 : w1 = {| Datastore.store :=
                         {| pool := pool (Datastore.store w);
                            models := models (Datastore.store w);
                            pods := delete k (pods (Datastore.store w));
                            sessions := sessions (Datastore.store w) |};
                       Datastore.stopRefreshLoopCalls :=
                         (Datastore.stopRefreshLoopCalls w ++ [pm])%list |}).
  { subst w1. unfold Datastore.PodDelete, Datastore.LoadAndDelete. by rewrite Hk. }
  assert (Hgone : pods (Datastore.store w1) !! k = None).
  { rewrite H1. simpl. apply lookup_delete_eq. }
  assert (Hid : Datastore.PodDelete k w1 = w1).
  { rewrite (PodDelete_absent k w1 Hgone). rewrite H1. done. }
  assert (Hiter : ∀ m, Nat.iter m (Datastore.PodDelete k) w1 = w1).
  { induction m as [|m IH]; [done|]. simpl. by rewrite IH. }
  split; [by rewrite H1|]. split; [done|]. split; [by rewrite H1|].
  split; [done|]. split; [apply Hiter|].
  rewrite Nat.iter_succ_r. fold w1. rewrite Hiter. by rewrite H1.
Qed.

Lemma PodDelete_stops_once_witness :
  let k := mkNamespacedName "default" "pod-a" in
  let pm := mkHandle (mkPod k "10.0.0.1:8000") (mkMetrics 0 0 [] 4) in
  let w := Datastore.mkWorld (mkDatastore None ∅ {[ k := pm ]} ∅) [] in
  Datastore.stopRefreshLoopCalls (Nat.iter 3 (Datastore.PodDelete k) w) = [pm].
Proof.
  intros k pm w.
  exact (proj2 (proj2 (proj2 (proj2 (proj2
    (PodDelete_stops_once k pm w 2 (lookup_singleton_eq k pm))))))).
Defined.

(** C10. [PoolLabelsMatch] dereferences the pool: on a new datastore,
    and whenever no pool is set, it panics on the nil pool; once
    [PoolHasSynced] holds it returns,
    for every label map, and the result is true exactly when every
    key of the pool's selector is in the label map with the same
    value. *)
Theorem PoolLabelsMatch_spec (ds : datastore) (podLabels : gmap string string) :
  Datastore.PoolLabelsMatch podLabels Datastore.NewDatastore = Panics NilDereference
  ∧ (Datastore.PoolHasSynced ds = false →
     Datastore.PoolLabelsMatch podLabels ds = Panics NilDereference)
  ∧ (Datastore.PoolHasSynced ds = true →
     ∃ p b, pool ds = Some p
       ∧ Datastore.PoolLabelsMatch podLabels ds = Returns b
       ∧ (b = true ↔
          ∀ k v, pool_Selector p !! k = Some v → podLabels !! k = Some v)).
Proof.
  split; [reflexivity|].
  unfold Datastore.PoolHasSynced, Datastore.PoolLabelsMatch.
  destruct (pool ds) as [p|]; split; try done.
  intros _. eexists p, _. split; [done|]. split; [done|].
  unfold Datastore.selectorFromInferencePoolSelector.
  rewrite stripLabelKeyAliasFromLabelMap_id.
  apply Selector_Matches_spec.
Qed.

Lemma PoolLabelsMatch_spec_witness :
  let p := mkInferencePool "pool" "default" {[ "app" := "vllm" ]} in
  let ds := mkDatastore (Some p) ∅ ∅ ∅ in
  let labels : gmap string string := {[ "app" := "vllm"; "tier" := "gpu" ]} in
  ∃ p' b, pool ds = Some p'
    ∧ Datastore.PoolLabelsMatch labels ds = Returns b
    ∧ (b = true ↔ ∀ k v, pool_Selector p' !! k = Some v → labels !! k = Some v).
Proof.
  intros p ds labels.
  exact (proj2 (proj2 (PoolLabelsMatch_spec ds labels)) eq_refl).
Defined.

(** ** Pickers *)

Lemma obind_Returns {A B : Type} (a : A) (k : A → outcome B) :
  obind (Returns a) k = k a.
Proof. reflexivity. Qed.

Lemma index_lt {A : Type} (l : list A) (i : nat) :
  (i < length l)%nat → ∃ x, index l i = Returns x ∧ l !! i = Some x.
Proof.
  intros Hi. destruct (lookup_lt_is_Some_2 l i Hi) as [x Hx].
  exists x. unfold index. by rewrite Hx.
Qed.

Lemma RandomPicker_Pick_nonempty {A : Type} (r : nat) (pods : list A) :
  pods ≠ [] →
  ∃ p, RandomPicker.Pick r pods = Returns (mkResult p)
       ∧ pods !! (r `mod` length pods)%nat = Some p.
Proof.
  intros Hne. unfold RandomPicker.Pick.
  destruct pods as [|p0 pods]; [done|].
  set (l := p0 :: pods).
  assert (Hr : rand_Intn r (length l) = Returns (r `mod` length l)%nat) by done.
  rewrite Hr, obind_Returns.
  destruct (index_lt l (r `mod` length l)%nat) as (x & Hx & Hl).
  { apply Nat.mod_upper_bound. done. }
  exists x. rewrite Hx, obind_Returns. done.
Qed.

Lemma RandomPicker_Pick_empty {A : Type} (r : nat) :
  RandomPicker.Pick r (@nil A) = Panics IntnNonPositive.
Proof. done. Qed.

(** C9. On a non-empty candidate list [RandomPicker.Pick] returns,
    whatever the generator draws, and the target of its result is one of
    the candidates; neither the panic of [rand.Intn] nor an index out of
    range is reached. *)
Theorem RandomPicker_Pick_safe {A : Type} (r : nat) (pods : list A) :
  pods ≠ [] →
  ∃ res, RandomPicker.Pick r pods = Returns res ∧ TargetPod res ∈ pods.
Proof.
  intros Hne.
  destruct (RandomPicker_Pick_nonempty r pods Hne) as (p & Hp & Hl).
  exists (mkResult p). split; [done|]. simpl.
  by apply list_elem_of_lookup_2 in Hl.
Qed.

Lemma RandomPicker_Pick_safe_witness :
  ∃ res, RandomPicker.Pick 7 ["pod-a"; "pod-b"; "pod-c"] = Returns res
         ∧ TargetPod res ∈ ["pod-a"; "pod-b"; "pod-c"].
Proof.
  apply (RandomPicker_Pick_safe 7 ["pod-a"; "pod-b"; "pod-c"]). done.
Defined.

(** *** The least-recently-used picker *)

Section lru_facts.

Import LRUPicker.

Variable cache0 : gmap NamespacedName Z.

Lemma usage_insert_zero (c : gmap NamespacedName Z) (k k' : NamespacedName) :
  c !! k = None → usage (<[k := 0]> c) k' = usage c k'.
Proof.
  intros Hk. unfold usage. destruct (decide (k = k')) as [<-|Hne].
  - by rewrite lookup_insert_eq, Hk.
  - by rewrite lookup_insert_ne.
Qed.

Lemma filter_none {A : Type} (f : A → bool) (l : list A) :
  (∀ x, x ∈ l → f x = false) → List.filter f l = [].
Proof.
  induction l as [|a l IH]; [done|]. intros H. simpl.
  rewrite (H a) by (left). apply IH. intros x Hx. apply H. by right.
Qed.

Lemma lru_step_inv (seen : list ScoredPod) (st : loop) (pod : ScoredPod) :
  lru_inv cache0 seen st → lru_inv cache0 (seen ++ [pod]) (step st pod).
Proof.
  intros (Hu & Hin & Hle & Hmin & Hatt & Hbest).
  unfold step.
  set (key := sp_NamespacedName pod).
  assert (Hpu : ∃ cache,
    (match podsCache st !! key with
     | Some u => (u, podsCache st)
     | None => (0, <[key := 0]> (podsCache st))
     end) = (usage cache0 key, cache)
    ∧ (∀ k, usage cache k = usage cache0 k)
    ∧ is_Some (cache !! key)
    ∧ ∀ k, is_Some (podsCache st !! k) → is_Some (cache !! k)).
  { destruct (podsCache st !! key) as [u|] eqn:Hk.
    - exists (podsCache st). split; [|split; [|split]]; try done.
      all: try (f_equal; rewrite <- Hu; unfold usage; by rewrite Hk).
      all: try (by rewrite Hk).
    - exists (<[key := 0]> (podsCache st)). split; [|split; [|split]].
      + f_equal. rewrite <- Hu. unfold usage. by rewrite Hk.
      + intros k. rewrite usage_insert_zero; done.
      + rewrite lookup_insert_eq. by eexists.
      + intros k Hs. destruct (decide (key = k)) as [<-|Hne].
        * rewrite lookup_insert_eq. by eexists.
        * by rewrite lookup_insert_ne. }
  destruct Hpu as (cache & -> & Hcu & Hck & Hmono).
  assert (Hin' : ∀ p, p ∈ (seen ++ [pod])%list → is_Some (cache !! sp_NamespacedName p)).
  { intros p [Hp|Hp]%elem_of_app; [by apply Hmono, Hin|].
    apply list_elem_of_singleton in Hp as ->. exact Hck. }
  assert (Hatt' : minUsages st = 100000
     ∨ ∃ p, p ∈ (seen ++ [pod])%list
            ∧ usage cache0 (sp_NamespacedName p) = minUsages st).
  { destruct Hatt as [Hm|(p & Hp & Hpu)]; [by left|].
    right. exists p. split; [|done]. apply elem_of_app. by left. }
  destruct (Z.eqb_spec (usage cache0 key) (minUsages st)) as [Heq|Hne].
  - split; [done|]. split; [done|]. split; [done|]. split; [|split; [done|]].
    + intros p [Hp|Hp]%elem_of_app; [by apply Hmin|].
      apply list_elem_of_singleton in Hp as ->. fold key. simpl. lia.
    + simpl. rewrite List.filter_app, <- Hbest. simpl. fold key.
      by rewrite (proj2 (Z.eqb_eq _ _) Heq).
  - destruct (Z.ltb_spec (usage cache0 key) (minUsages st)) as [Hlt|Hge].
    + split; [done|]. split; [done|]. split; [simpl; lia|].
      split; [|split].
      * intros p [Hp|Hp]%elem_of_app; simpl.
        -- specialize (Hmin p Hp). lia.
        -- apply list_elem_of_singleton in Hp as ->. fold key. lia.
      * right. exists pod. split; [|done]. apply elem_of_app. right. by left.
      * simpl. rewrite List.filter_app. simpl. fold key.
        rewrite Z.eqb_refl. rewrite filter_none; [done|].
        intros x Hx. apply Z.eqb_neq. specialize (Hmin x Hx). lia.
    + split; [done|]. split; [done|]. split; [done|]. split; [|split; [done|]].
      * intros p [Hp|Hp]%elem_of_app; simpl; [by apply Hmin|].
        apply list_elem_of_singleton in Hp as ->. fold key. lia.
      * simpl. rewrite List.filter_app, <- Hbest. simpl. fold key.
        rewrite (proj2 (Z.eqb_neq _ _) Hne). by rewrite app_nil_r.
Qed.

Lemma lru_loop_inv (pods : list ScoredPod) :
  lru_inv cache0 pods
    (fold_left step pods
       {| podsCache := cache0; minUsages := 100000; bestPods := [] |}).
Proof.
  induction pods as [|pod pods IH] using rev_ind.
  - split; [done|]. split; [|split; [done|split; [|split; [by left|done]]]].
    all: intros p Hp; by apply elem_of_nil in Hp.
  - rewrite fold_left_app. simpl. by apply lru_step_inv.
Qed.

End lru_facts.

Lemma int_add_one (u : Z) : is_int u → u ≤ 100000 → int_add u 1 = u + 1.
Proof.
  unfold is_int, int_min, int_max, int_add, int_wrap. intros [Hlo Hhi] Hu.
  rewrite Z.mod_small; lia.
Qed.

Lemma usage_is_int (cache : gmap NamespacedName Z) (k : NamespacedName) :
  map_Forall (λ _ c, is_int c) cache → is_int (usage cache k).
Proof.
  intros Hall. unfold usage. destruct (cache !! k) as [c|] eqn:Hk; simpl.
  - exact (Hall k c Hk).
  - unfold is_int, int_min, int_max. lia.
Qed.

(** While some candidate has been used at most 100000 times, [Pick]
    does what its comments say: it returns a candidate of minimal usage
    (the one the random picker draws among those of minimal usage),
    every candidate is in the usage map afterwards, the count of the
    winner has grown by one and no other count has changed. *)
Lemma LRUPicker_Pick_least_used (r : nat) (cache0 : gmap NamespacedName Z)
    (scoredPods : list ScoredPod) :
  map_Forall (λ _ c, is_int c) cache0 →
  (∃ p, p ∈ scoredPods ∧ usage cache0 (sp_NamespacedName p) ≤ 100000) →
  ∃ best cache',
    LRUPicker.Pick r cache0 scoredPods = Returns (mkResult best, cache')
    ∧ best ∈ scoredPods
    ∧ (∀ q, q ∈ scoredPods →
         usage cache0 (sp_NamespacedName best) ≤ usage cache0 (sp_NamespacedName q))
    ∧ (let least :=
         List.filter (λ q, usage cache0 (sp_NamespacedName q)
                           =? usage cache0 (sp_NamespacedName best)) scoredPods in
       least !! (r `mod` length least)%nat = Some best)
    ∧ usage cache' (sp_NamespacedName best)
      = usage cache0 (sp_NamespacedName best) + 1
    ∧ (∀ k, k ≠ sp_NamespacedName best → usage cache' k = usage cache0 k)
    ∧ (∀ q, q ∈ scoredPods → is_Some (cache' !! sp_NamespacedName q)).
Proof.
  intros Hint (p0 & Hp0 & Hp0u).
  destruct (lru_loop_inv cache0 scoredPods)
    as (Hu & Hin & Hle & Hmin & Hatt & Hbest).
  unfold LRUPicker.Pick.
  set (st := fold_left LRUPicker.step scoredPods _) in *.
  assert (Hmem : ∀ b, b ∈ LRUPicker.bestPods st →
            b ∈ scoredPods
            ∧ usage cache0 (sp_NamespacedName b) = LRUPicker.minUsages st).
  { intros b Hb. rewrite Hbest in Hb. apply list_elem_of_In, filter_In in Hb.
    destruct Hb as [Hb1 Hb2]. split; [by apply list_elem_of_In|].
    by apply Z.eqb_eq. }
  assert (Hne : LRUPicker.bestPods st ≠ []).
  { assert (Hex : ∃ q, q ∈ scoredPods
              ∧ usage cache0 (sp_NamespacedName q) = LRUPicker.minUsages st).
    { destruct Hatt as [Hm|Hex]; [|done].
      exists p0. split; [done|]. specialize (Hmin p0 Hp0). lia. }
    destruct Hex as (q & Hq & Hqu). rewrite Hbest. intros Hnil.
    assert (Hqin : In q (List.filter
               (λ p, usage cache0 (sp_NamespacedName p) =? LRUPicker.minUsages st)
               scoredPods)).
    { apply filter_In. split; [by apply list_elem_of_In|]. by apply Z.eqb_eq. }
    by rewrite Hnil in Hqin. }
  (* what follows from the choice of [best], however it was made *)
  assert (Hfin : ∀ best,
    LRUPicker.bestPods st !! (r `mod` length (LRUPicker.bestPods st))%nat
      = Some best →
    let cache' := LRUPicker.increment (LRUPicker.podsCache st)
                    (sp_NamespacedName best) in
    best ∈ scoredPods
    ∧ (∀ q, q ∈ scoredPods →
         usage cache0 (sp_NamespacedName best) ≤ usage cache0 (sp_NamespacedName q))
    ∧ (let least :=
         List.filter (λ q, usage cache0 (sp_NamespacedName q)
                           =? usage cache0 (sp_NamespacedName best)) scoredPods in
       least !! (r `mod` length least)%nat = Some best)
    ∧ usage cache' (sp_NamespacedName best)
      = usage cache0 (sp_NamespacedName best) + 1
    ∧ (∀ k, k ≠ sp_NamespacedName best → usage cache' k = usage cache0 k)
    ∧ (∀ q, q ∈ scoredPods → is_Some (cache' !! sp_NamespacedName q))).
  { intros best Hl cache'.
    destruct (Hmem best (list_elem_of_lookup_2 _ _ _ Hl)) as [Hbin Hbu].
    split; [done|]. split; [|split; [|split; [|split]]].
    - intros q Hq. rewrite Hbu. by apply Hmin.
    - simpl. rewrite Hbu, <- Hbest. exact Hl.
    - subst cache'. unfold LRUPicker.increment.
      unfold usage at 1. rewrite lookup_insert_eq. simpl.
      rewrite Hu. apply int_add_one; [by apply usage_is_int|lia].
    - intros k Hk. subst cache'. unfold LRUPicker.increment.
      unfold usage at 1. rewrite lookup_insert_ne by done.
      apply Hu.
    - intros q Hq. subst cache'. unfold LRUPicker.increment.
      destruct (decide (sp_NamespacedName best = sp_NamespacedName q)) as [->|Hd].
      + rewrite lookup_insert_eq. by eexists.
      + rewrite lookup_insert_ne by done. by apply Hin. }
  destruct (LRUPicker.bestPods st) as [|b [|b2 bs]] eqn:Hb; [done| |].
  - exists b, (LRUPicker.increment (LRUPicker.podsCache st) (sp_NamespacedName b)).
    split; [done|]. apply Hfin.
    change (length [b]) with 1%nat. by rewrite Nat.mod_1_r.
  - destruct (RandomPicker_Pick_nonempty r (b :: b2 :: bs)) as (best & Hpick & Hl);
      [done|].
    exists best,
      (LRUPicker.increment (LRUPicker.podsCache st) (sp_NamespacedName best)).
    split; [by rewrite Hpick|]. by apply Hfin.
Qed.

(** C6, at a usage map the picker reaches after 100001 picks of the one
    pod of a pool: the count of the only candidate is above the initial
    value 100000 of [minUsages], no candidate is kept, and the random
    picker is called on an empty list and panics, whatever it draws. *)
Theorem LRUPicker_Pick_above_sentinel_panics :
  let pod := mkScoredPod (mkPod (mkNamespacedName "default" "pod-a")
                                "10.0.0.1:8000") 0 in
  let cache : gmap NamespacedName Z := {[ sp_NamespacedName pod := 100001 ]} in
  ∀ r, LRUPicker.Pick r cache [pod] = Panics IntnNonPositive.
Proof. intros pod cache r. vm_compute. reflexivity. Qed.

(** ** Scorers *)

Lemma NamespacedName_String_nonempty (n : NamespacedName) :
  NamespacedName_String n ≠ "".
Proof. unfold NamespacedName_String. destruct (Namespace n); discriminate. Qed.

Lemma append_separator_inj (a b x y : string) :
  has_separator a = false → has_separator b = false →
  (a ++ "/" ++ x)%string = (b ++ "/" ++ y)%string → a = b ∧ x = y.
Proof.
  revert b. induction a as [|c a IH]; intros [|d b] Ha Hb Heq; cbn in *.
  - injection Heq as Heq. cbn in Heq. by subst.
  - injection Heq as <- _. by rewrite Ascii.eqb_refl in Hb.
  - injection Heq as -> _. by rewrite Ascii.eqb_refl in Ha.
  - injection Heq as -> Heq.
    apply orb_false_iff in Ha as [_ Ha]. apply orb_false_iff in Hb as [_ Hb].
    destruct (IH b Ha Hb Heq) as [-> ->]. done.
Qed.

(** Where the namespaces hold no separator, two namespaced names render
    to the same string only if they are the same pair. *)
Lemma NamespacedName_String_inj (n m : NamespacedName) :
  has_separator (Namespace n) = false → has_separator (Namespace m) = false →
  NamespacedName_String n = NamespacedName_String m → n = m.
Proof.
  intros Hn Hm Heq. destruct n as [ns nm], m as [ms mm]; simpl in *.
  destruct (append_separator_inj ns ms nm mm Hn Hm Heq) as [-> ->]. done.
Qed.

Lemma SessionAffinity_scoreLoop_spec (sel : string) (pods : list PodMetrics)
    (done_ : list PodScore) :
  SessionAffinityScorer.scoreLoop sel (length done_) pods
    (done_ ++ replicate (length pods) PodScore_zero)
  = (done_ ++ map (affinityEntry sel) pods)%list.
Proof.
  revert done_. induction pods as [|pod pods IH]; intros done_; [done|].
  cbn [SessionAffinityScorer.scoreLoop length replicate map].
  set (l := (done_ ++ PodScore_zero :: replicate (length pods) PodScore_zero)%list).
  assert (Hl : alter (set_Pod pod) (length done_)
                 (if String.eqb sel (NamespacedName_String (pm_NamespacedName pod))
                  then alter (set_Score 1) (length done_) l else l)
               = ((done_ ++ [affinityEntry sel pod])
                    ++ replicate (length pods) PodScore_zero)%list).
  { subst l. unfold affinityEntry.
    destruct (String.eqb sel _).
    - rewrite <- (Nat.add_0_r (length done_)).
      rewrite !alter_app_r. simpl. by rewrite <- app_assoc.
    - rewrite <- (Nat.add_0_r (length done_)).
      rewrite !alter_app_r. simpl. by rewrite <- app_assoc. }
  rewrite Hl.
  replace (S (length done_)) with (length (done_ ++ [affinityEntry sel pod]))
    by (rewrite length_app; simpl; lia).
  rewrite IH. by rewrite <- app_assoc.
Qed.

Lemma SessionAffinity_ScoreTargets_eq (ds : datastore) (ctx : Context)
    (req : LLMRequest) (pods : list PodMetrics) :
  Req ctx = Some req →
  SessionAffinityScorer.ScoreTargets ds ctx pods
  = Returns
      (map (affinityEntry
              (if negb (String.eqb (SessionID req) "") then
                 match Datastore.GetPodForSession (SessionID req) ds with
                 | Some selectedPod =>
                     NamespacedName_String (pod_NamespacedName selectedPod)
                 | None => ""
                 end
               else "")) pods, None).
Proof.
  intros Hreq. unfold SessionAffinityScorer.ScoreTargets. rewrite Hreq.
  do 2 f_equal.
  exact (SessionAffinity_scoreLoop_spec _ pods []).
Qed.

(** C3. [SessionAffinityScorer.ScoreTargets] returns without error one
    entry per input pod, in order, each holding its pod. With an empty
    session id every score is 0. Otherwise the pods whose namespaced
    name, rendered as [namespace/name], is that of the pod stored for
    the session score 1.0 and all others 0.0 (all of them when nothing
    is stored); where the namespaces hold no separator, as in a
    cluster, the rendered names are equal exactly when the namespaced
    names are. *)
Theorem SessionAffinityScorer_ScoreTargets_spec (ds : datastore) (ctx : Context)
    (req : LLMRequest) (pods : list PodMetrics) :
  Req ctx = Some req →
  ∃ scoredPods,
    SessionAffinityScorer.ScoreTargets ds ctx pods = Returns (scoredPods, None)
    ∧ length scoredPods = length pods
    ∧ ∀ i pod, pods !! i = Some pod →
        ∃ ps, scoredPods !! i = Some ps
          ∧ ps_Pod ps = Some pod
          ∧ (SessionID req = "" → Score ps = 0%float)
          ∧ (SessionID req ≠ "" →
               (Datastore.GetPodForSession (SessionID req) ds = None →
                  Score ps = 0%float)
               ∧ ∀ selectedPod,
                   Datastore.GetPodForSession (SessionID req) ds = Some selectedPod →
                   (NamespacedName_String (pod_NamespacedName selectedPod)
                    = NamespacedName_String (pm_NamespacedName pod) →
                      Score ps = 1%float)
                   ∧ (NamespacedName_String (pod_NamespacedName selectedPod)
                      ≠ NamespacedName_String (pm_NamespacedName pod) →
                      Score ps = 0%float)
                   ∧ (has_separator (Namespace (pod_NamespacedName selectedPod)) = false →
                      has_separator (Namespace (pm_NamespacedName pod)) = false →
                      (pod_NamespacedName selectedPod = pm_NamespacedName pod →
                         Score ps = 1%float)
                      ∧ (pod_NamespacedName selectedPod ≠ pm_NamespacedName pod →
                         Score ps = 0%float))).
Proof.
  intros Hreq. rewrite (SessionAffinity_ScoreTargets_eq ds ctx req pods Hreq).
  eexists. split; [reflexivity|]. split; [apply length_map|].
  intros i pod Hi. eexists. split.
  { change (map ?f pods) with (f <$> pods). rewrite list_lookup_fmap, Hi.
    reflexivity. }
  split; [done|]. cbn [Score affinityEntry].
  assert (Hempty : ∀ n, String.eqb "" (NamespacedName_String n) = false).
  { intros n. apply String.eqb_neq. intros H.
    by apply (NamespacedName_String_nonempty n). }
  split.
  - intros ->. rewrite String.eqb_refl. cbn [negb]. by rewrite Hempty.
  - intros Hsid. apply String.eqb_neq in Hsid. rewrite Hsid. cbn [negb]. split.
    + intros ->. by rewrite Hempty.
    + intros selectedPod ->.
      assert (Hyes : NamespacedName_String (pod_NamespacedName selectedPod)
                     = NamespacedName_String (pm_NamespacedName pod)
                     → (if String.eqb
                             (NamespacedName_String (pod_NamespacedName selectedPod))
                             (NamespacedName_String (pm_NamespacedName pod))
                        then 1%float else 0%float) = 1%float).
      { intros ->. by rewrite String.eqb_refl. }
      assert (Hno : NamespacedName_String (pod_NamespacedName selectedPod)
                     ≠ NamespacedName_String (pm_NamespacedName pod)
                     → (if String.eqb
                             (NamespacedName_String (pod_NamespacedName selectedPod))
                             (NamespacedName_String (pm_NamespacedName pod))
                        then 1%float else 0%float) = 0%float).
      { intros H. apply String.eqb_neq in H. by rewrite H. }
      split; [exact Hyes|]. split; [exact Hno|].
      intros Hs1 Hs2. split.
      * intros Heq. apply Hyes. by rewrite Heq.
      * intros Hne. apply Hno. intros H. apply Hne.
        by apply NamespacedName_String_inj.
Qed.

Lemma SessionAffinityScorer_ScoreTargets_spec_witness :
  let a := mkPodMetrics (mkPod (mkNamespacedName "default" "pod-a") "10.0.0.1:8000")
                        (mkMetrics 0 0 [] 4) in
  let b := mkPodMetrics (mkPod (mkNamespacedName "default" "pod-b") "10.0.0.2:8000")
                        (mkMetrics 3 0 [] 4) in
  let ds := Datastore.SetPodForSession 0 "s1" (Some (pm_Pod a))
              (mkDatastore None ∅ ∅ ∅) in
  let req := mkLLMRequest "m" "hello" "s1" true in
  ∃ scoredPods,
    SessionAffinityScorer.ScoreTargets ds (NewContext (Some req) [a; b]) [a; b]
    = Returns (scoredPods, None)
    ∧ length scoredPods = 2%nat.
Proof.
  intros a b ds req.
  destruct (SessionAffinityScorer_ScoreTargets_spec ds
              (NewContext (Some req) [a; b]) req [a; b] eq_refl)
    as (scoredPods & Hret & Hlen & _).
  exists scoredPods. split; [exact Hret|exact Hlen].
Defined.

(** *** The KV-cache-aware scorer *)

Section kvcache_facts.

Import KVCacheAwareScorer.

Lemma keys_fold_identifiers (pods : list (option PodMetrics))
    (acc : list string * gmap string PodMetrics) :
  (fold_left keysStep pods acc).1
  = (acc.1 ++ omap (fmap (λ p, Address (pm_Pod p))) pods)%list.
Proof.
  revert acc. induction pods as [|[p|] pods IH]; intros acc; simpl.
  - by rewrite app_nil_r.
  - rewrite IH. simpl. by rewrite <- app_assoc.
  - apply IH.
Qed.

Lemma keys_fold_map (pods : list (option PodMetrics))
    (acc : list string * gmap string PodMetrics) (k : string) (p : PodMetrics) :
  (fold_left keysStep pods acc).2 !! k = Some p →
  acc.2 !! k = Some p ∨ (Some p ∈ pods ∧ Address (pm_Pod p) = k).
Proof.
  revert acc. induction pods as [|[q|] pods IH]; intros acc; simpl.
  - by left.
  - intros H. apply IH in H as [H|[H1 H2]].
    + simpl in H. destruct (decide (Address (pm_Pod q) = k)) as [Hk|Hk].
      * rewrite Hk, lookup_insert_eq in H. injection H as ->.
        right. split; [by left|done].
      * rewrite lookup_insert_ne in H by done. by left.
    + right. split; [by right|done].
  - intros H. apply IH in H as [H|[H1 H2]]; [by left|].
    right. split; [by right|done].
Qed.

Lemma podMetricsToKeysAndMap_spec (pods : list (option PodMetrics)) :
  (podMetricsToKeysAndMap pods).1 = omap (fmap (λ p, Address (pm_Pod p))) pods
  ∧ ∀ k p, (podMetricsToKeysAndMap pods).2 !! k = Some p →
           Some p ∈ pods ∧ Address (pm_Pod p) = k.
Proof.
  unfold podMetricsToKeysAndMap. split.
  - by rewrite keys_fold_identifiers.
  - intros k p H. apply keys_fold_map in H as [H|H]; [|done].
    simpl in H. by rewrite lookup_empty in H.
Qed.

Lemma scoreLoop_fold (m : gmap string PodMetrics) (scores : list IndexerPodScore)
    (acc : list PodScore) (ps : PodScore) :
  ps ∈ fold_left (scoreStep m) scores acc →
  ps ∈ acc
  ∨ ∃ s p, s ∈ scores ∧ m !! ips_Name s = Some p
           ∧ ps = {| Score := ips_Score s; ps_Pod := Some p |}.
Proof.
  revert acc. induction scores as [|s scores IH]; intros acc; simpl; [by left|].
  intros H. apply IH in H as [H|(s' & p & Hs & Hm & ->)].
  - unfold scoreStep in H.
    destruct (m !! ips_Name s) as [p|] eqn:Hm; [|by left].
    apply elem_of_app in H as [H|H]; [by left|].
    apply list_elem_of_singleton in H as ->.
    right. exists s, p. split; [by left|done].
  - right. exists s', p. split; [by right|done].
Qed.

Lemma scoreLoop_spec (m : gmap string PodMetrics) (scores : list IndexerPodScore)
    (ps : PodScore) :
  ps ∈ scoreLoop m scores →
  ∃ s p, s ∈ scores ∧ m !! ips_Name s = Some p
         ∧ ps = {| Score := ips_Score s; ps_Pod := Some p |}.
Proof.
  intros H. apply scoreLoop_fold in H as [H|H]; [|done].
  by apply elem_of_nil in H.
Qed.

End kvcache_facts.

(** Every pod in the answer of the scorer is a pod of the input, with
    the score the indexer gave to its address. *)
Lemma KVCacheAwareScorer_ScoreTargets_from_input (idx : Indexer) (ctx : Context)
    (pods : list (option PodMetrics)) (ps : PodScore) :
  ps ∈ (KVCacheAwareScorer.ScoreTargets idx ctx pods).1 →
  ∃ p, ps_Pod ps = Some p ∧ Some p ∈ pods.
Proof.
  unfold KVCacheAwareScorer.ScoreTargets.
  destruct (Req ctx) as [req|]; [|by intros H%elem_of_nil].
  destruct (podMetricsToKeysAndMap_spec pods) as [_ Hm].
  destruct (KVCacheAwareScorer.podMetricsToKeysAndMap pods) as [ids m].
  destruct (length ids =? 0)%nat; [by intros H%elem_of_nil|].
  destruct (idx (Prompt req) (Model req) ids) as [scores [e|]];
    [by intros H%elem_of_nil|].
  simpl. intros H. apply scoreLoop_spec in H as (s & p & _ & Hp & ->).
  exists p. split; [done|]. by apply (Hm _ _ Hp).
Qed.

(** C4, as the code has it. When the indexer is called (the request is
    there and some pod is not nil) and fails with [e], the scorer returns
    no scores and [e] wrapped by ["failed to get pod scores: %w"]: the
    code of the result is the code of [e], and none when [e] has none.
    When the indexer succeeds, every entry of the result holds a pod of
    the input, with the score the indexer gave to the address of that
    pod; pods the indexer did not score have no entry. *)
Theorem KVCacheAwareScorer_ScoreTargets_spec (idx : Indexer) (ctx : Context)
    (req : LLMRequest) (pods : list (option PodMetrics)) :
  Req ctx = Some req →
  omap (fmap (λ p, Address (pm_Pod p))) pods ≠ [] →
  let podIdentifiers := omap (fmap (λ p, Address (pm_Pod p))) pods in
  (∀ scores e,
     idx (Prompt req) (Model req) podIdentifiers = (scores, Some e) →
     KVCacheAwareScorer.ScoreTargets idx ctx pods
     = ([], Some (fmt_wrapError "failed to get pod scores: %w" e))
     ∧ errors_Unwrap (fmt_wrapError "failed to get pod scores: %w" e) = Some e
     ∧ error_code (fmt_wrapError "failed to get pod scores: %w" e) = error_code e)
  ∧ (∀ scores,
       idx (Prompt req) (Model req) podIdentifiers = (scores, None) →
       ∃ scoredPods,
         KVCacheAwareScorer.ScoreTargets idx ctx pods = (scoredPods, None)
         ∧ ∀ ps, ps ∈ scoredPods →
             ∃ p s, ps_Pod ps = Some p ∧ Some p ∈ pods
                    ∧ s ∈ scores ∧ ips_Name s = Address (pm_Pod p)
                    ∧ Score ps = ips_Score s).
Proof.
  intros Hreq Hids podIdentifiers.
  destruct (podMetricsToKeysAndMap_spec pods) as [Hk Hm].
  unfold KVCacheAwareScorer.ScoreTargets. rewrite Hreq.
  destruct (KVCacheAwareScorer.podMetricsToKeysAndMap pods) as [ids m].
  simpl in Hk, Hm. subst ids. fold podIdentifiers.
  assert (Hlen : (length podIdentifiers =? 0)%nat = false).
  { apply Nat.eqb_neq. subst podIdentifiers.
    destruct (omap _ pods); [done|]. simpl. lia. }
  rewrite Hlen. split.
  - intros scores e ->. done.
  - intros scores ->. eexists. split; [reflexivity|].
    intros ps Hps. apply scoreLoop_spec in Hps as (s & p & Hs & Hp & ->).
    destruct (Hm _ _ Hp) as [Hin Haddr].
    exists p, s. done.
Qed.

Lemma KVCacheAwareScorer_ScoreTargets_spec_witness :
  let a := mkPodMetrics (mkPod (mkNamespacedName "default" "pod-a") "10.0.0.1:8000")
                        (mkMetrics 0 0 [] 4) in
  let b := mkPodMetrics (mkPod (mkNamespacedName "default" "pod-b") "10.0.0.2:8000")
                        (mkMetrics 3 0 [] 4) in
  let req := mkLLMRequest "m" "hello" "" true in
  let idx : Indexer := λ _ _ _, ([mkIndexerPodScore "10.0.0.2:8000" 0.5], None) in
  ∃ scoredPods,
    KVCacheAwareScorer.ScoreTargets idx (NewContext (Some req) [a; b])
      [Some a; None; Some b] = (scoredPods, None)
    ∧ ∀ ps, ps ∈ scoredPods →
        ∃ p s, ps_Pod ps = Some p ∧ Some p ∈ [Some a; None; Some b]
               ∧ s ∈ [mkIndexerPodScore "10.0.0.2:8000" 0.5]
               ∧ ips_Name s = Address (pm_Pod p)
               ∧ Score ps = ips_Score s.
Proof.
  intros a b req idx.
  refine (proj2 (KVCacheAwareScorer_ScoreTargets_spec idx
                   (NewContext (Some req) [a; b]) req [Some a; None; Some b]
                   eq_refl _) _ eq_refl).
  simpl. discriminate.
Defined.

(** C4, as the claim has it, fails: an indexer that fails with a plain
    error makes the scorer return an error that carries no code at all,
    and so not the code [KVCacheIndexerUnavailable]. *)
Lemma KVCacheAwareScorer_indexer_error_has_no_code :
  let a := mkPodMetrics (mkPod (mkNamespacedName "default" "pod-a") "10.0.0.1:8000")
                        (mkMetrics 0 0 [] 4) in
  let req := mkLLMRequest "m" "hello" "" true in
  let idx : Indexer := λ _ _ _, ([], Some (errors_New "connection refused")) in
  (idx (Prompt req) (Model req) ["10.0.0.1:8000"]).2
  = Some (errors_New "connection refused")
  ∧ (∃ err,
       KVCacheAwareScorer.ScoreTargets idx (NewContext (Some req) [a]) [Some a]
       = ([], Some err)
       ∧ error_code err = None)
  ∧ ¬ (∃ err,
         (KVCacheAwareScorer.ScoreTargets idx (NewContext (Some req) [a]) [Some a]).2
         = Some err
         ∧ error_code err = Some KVCacheIndexerUnavailable).
Proof.
  intros a req idx. split; [reflexivity|]. split.
  - eexists. split; reflexivity.
  - intros (err & Herr & Hcode). simpl in Herr. injection Herr as <-.
    simpl in Hcode. discriminate.
Qed.

(** ** Filters and the scheduler *)

Lemma filter_elem_of {A : Type} (f : A → bool) (l : list A) (x : A) :
  x ∈ List.filter f l ↔ x ∈ l ∧ f x = true.
Proof. rewrite !list_elem_of_In. apply filter_In. Qed.

Lemma toFilterFunc_sound (pp : podPredicate) :
  ∀ ctx pods p, p ∈ (toFilterFunc pp ctx pods).1 → p ∈ pods.
Proof.
  intros ctx pods p. unfold toFilterFunc. simpl.
  rewrite filter_elem_of. tauto.
Qed.

Lemma leastQueueFilter_sound : Filter_sound leastQueueFilter.
Proof.
  intros ctx [|q pods] p; simpl; [done|].
  intros H. change (p ∈ List.filter
                      (λ x, QueueDepth (pm_Metrics x)
                            =? Z_min_list (QueueDepth (pm_Metrics q))
                                 (map (λ y, QueueDepth (pm_Metrics y)) pods))
                      (q :: pods)) in H.
  by apply filter_elem_of in H as [H _].
Qed.

Lemma leastKVCacheFilter_sound : Filter_sound leastKVCacheFilter.
Proof.
  intros ctx [|q pods] p; simpl; [done|].
  intros H. change (p ∈ List.filter
                      (λ x, (KVCacheUtilization (pm_Metrics x)
                             =? float_min_list (KVCacheUtilization (pm_Metrics q))
                                  (map (λ y, KVCacheUtilization (pm_Metrics y)) pods))%float)
                      (q :: pods)) in H.
  by apply filter_elem_of in H as [H _].
Qed.

Lemma dropRequestFilter_sound : Filter_sound dropRequestFilter.
Proof. intros ctx pods p H. by apply elem_of_nil in H. Qed.

Lemma lowLatencyFilter_sound (config : Config)
    (requestedLoRA : LLMRequest → option string) :
  Filter_sound (lowLatencyFilter config requestedLoRA).
Proof.
  unfold lowLatencyFilter, leaf, lowQueueFilter, loRAAffinityFilter.
  cbn [Filter_sound].
  repeat split;
    first [ exact I | apply toFilterFunc_sound | apply leastQueueFilter_sound
          | apply leastKVCacheFilter_sound ].
Qed.

Lemma sheddableRequestFilter_sound (config : Config)
    (requestedLoRA : LLMRequest → option string) :
  Filter_sound (sheddableRequestFilter config requestedLoRA).
Proof.
  unfold sheddableRequestFilter, hasCapacityFilter. cbn [Filter_sound].
  split; [apply toFilterFunc_sound|].
  split; [apply lowLatencyFilter_sound|].
  split; [apply dropRequestFilter_sound|done].
Qed.

(** The output of a sound filter is within its input. *)
Lemma Filter_Filter_subset (f : Filter) :
  Filter_sound f →
  ∀ ctx pods p, p ∈ (Filter_Filter f ctx pods).1 → p ∈ pods.
Proof.
  revert f. fix IH 1. intros [name fn|current onS onF onE].
  - intros Hs ctx pods p. exact (Hs ctx pods p).
  - intros (Hc & HS & HF & HE) ctx pods p. cbn [Filter_Filter].
    pose proof (IH current Hc ctx pods) as Hcur.
    destruct (Filter_Filter current ctx pods) as [filtered err].
    simpl in Hcur.
    destruct filtered as [|x filtered].
    + destruct onF as [next|]; [exact (IH next HF ctx pods p)|].
      destruct onE as [next|]; [exact (IH next HE ctx pods p)|].
      simpl. intros H. by apply elem_of_nil in H.
    + destruct onS as [next|].
      { intros H. apply Hcur. exact (IH next HS ctx _ p H). }
      destruct onE as [next|].
      { intros H. apply Hcur. exact (IH next HE ctx _ p H). }
      simpl. exact (Hcur p).
Qed.

(** The pod the scorer manager selects is one of the pods it was given,
    whatever the scorers answered. *)
Lemma ScorerManager_ScoreTargets_in (r : nat) (sm : ScorerManager)
    (ctx : Context) (pods : list PodMetrics) (pod : PodMetrics)
    (err : option error) :
  ScorerManager.ScoreTargets r sm ctx pods = Returns (Some pod, err) →
  pod ∈ pods.
Proof.
  unfold ScorerManager.ScoreTargets.
  destruct (ScorerManager.runScorers (scorers sm) ctx pods) as [run|]; [|done].
  rewrite obind_Returns. destruct (run.2); [done|].
  set (candidates := List.filter _ pods).
  destruct (RandomPicker.Pick r candidates) as [res|] eqn:Hpick; [|done].
  rewrite obind_Returns. intros [= <- _].
  assert (Hin : TargetPod res ∈ candidates).
  { destruct candidates as [|c cs] eqn:Hc; [done|].
    destruct (RandomPicker_Pick_nonempty r (c :: cs)) as (p & Hres & Hl); [done|].
    rewrite Hpick in Hres. injection Hres as ->.
    by apply list_elem_of_lookup_2 in Hl. }
  by apply filter_elem_of in Hin as [Hin _].
Qed.

(** A pod of the snapshot is the view of a handle stored in the pod
    map. *)
Lemma snapshot_from_store (ds : datastore) (pod : PodMetrics) :
  pod ∈ ToSchedulerPodMetrics (Datastore.PodGetAll ds) →
  ∃ k h, pods ds !! k = Some h
         ∧ pod = {| pm_Pod := h_Pod h; pm_Metrics := h_Metrics h |}.
Proof.
  unfold ToSchedulerPodMetrics, Datastore.PodGetAll, Datastore.PodList.
  intros H. apply list_elem_of_In, in_map_iff in H as (h & <- & Hh).
  apply filter_In in Hh as [Hh _].
  apply list_elem_of_In, list_elem_of_fmap in Hh as ([k h'] & -> & Hkh).
  apply elem_of_map_to_list in Hkh. by exists k, h'.
Qed.

(** C1. A sheddable request scheduled on a snapshot in which no pod has
    capacity (queue depth within [QueueThresholdCritical] and KV-cache
    utilization within [KVCacheThreshold]) gets no pod and an error that
    wraps the error of the drop filter: unwrapping it gives that error,
    and its code is [InferencePoolResourceExhausted]. *)
Theorem Schedule_sheddable_dropped (config : Config)
    (requestedLoRA : LLMRequest → option string) (idx : Indexer)
    (ds : datastore) (r : nat) (req : LLMRequest) :
  Critical req = false →
  (∀ pod, pod ∈ ToSchedulerPodMetrics (Datastore.PodGetAll ds) →
     ¬ (QueueDepth (pm_Metrics pod) ≤ QueueThresholdCritical config
        ∧ (KVCacheUtilization (pm_Metrics pod) <=? KVCacheThreshold config)%float
          = true)) →
  ∃ err,
    Scheduler.Schedule (Scheduler.NewScheduler config requestedLoRA idx ds) r
      (Some req) = Returns (None, Some err)
    ∧ errors_Unwrap err
      = Some (errutil_Error InferencePoolResourceExhausted
                "dropping request due to limited backend resources")
    ∧ error_code err = Some InferencePoolResourceExhausted.
Proof.
  intros Hcrit Hnone.
  cbv beta iota zeta delta
    [Scheduler.Schedule Scheduler.NewScheduler NewContext PodsSnapshot
     sched_datastore criticalRequestFilter sheddableRequestFilter_ scorerMng].
  rewrite Hcrit. cbv beta iota.
  set (snapshot := ToSchedulerPodMetrics (Datastore.PodGetAll ds)) in *.
  assert (Hfilter :
    Filter_Filter (sheddableRequestFilter config requestedLoRA)
      {| Req := Some req; PodsSnapshot := snapshot |} snapshot
    = ([], Some (errutil_Error InferencePoolResourceExhausted
                   "dropping request due to limited backend resources"))).
  { unfold sheddableRequestFilter, hasCapacityFilter.
    cbn [Filter_Filter toFilterFunc Req].
    rewrite filter_none; [reflexivity|].
    intros pod Hpod. apply not_true_is_false. intros Hcap.
    apply (Hnone pod Hpod).
    unfold podPredicate_and, queueThresholdPredicate, kvCacheThresholdPredicate in Hcap.
    apply andb_true_iff in Hcap as [Hq Hkv]. split; [by apply Z.leb_le|done]. }
  rewrite Hfilter. eexists. split; [reflexivity|]. split; reflexivity.
Qed.

(** Scenario: one pod with queue depth 10 and KV-cache utilization 0.95,
    default thresholds, a sheddable request. *)
Lemma Schedule_sheddable_dropped_witness :
  let k := mkNamespacedName "default" "pod-a" in
  let h := mkHandle (mkPod k "10.0.0.1:8000") (mkMetrics 10 0.95 [] 4) in
  let ds := mkDatastore None ∅ {[ k := h ]} ∅ in
  let req := mkLLMRequest "m" "hello" "" false in
  let idx : Indexer := λ _ _ _, ([], None) in
  ∃ err,
    Scheduler.Schedule (Scheduler.NewScheduler defaultConfig (λ _, None) idx ds) 0
      (Some req) = Returns (None, Some err)
    ∧ errors_Unwrap err
      = Some (errutil_Error InferencePoolResourceExhausted
                "dropping request due to limited backend resources")
    ∧ error_code err = Some InferencePoolResourceExhausted.
Proof.
  intros k h ds req idx.
  apply (Schedule_sheddable_dropped defaultConfig (λ _, None) idx ds 0 req eq_refl).
  intros pod Hpod [Hq _].
  apply snapshot_from_store in Hpod as (k' & h' & Hk & ->).
  subst ds. simpl in Hk.
  apply lookup_singleton_Some in Hk as [_ <-]. simpl in Hq. lia.
Defined.

(** C2. Whatever the request, the datastore, the answer of the indexer
    and the draw of the picker: a pod that [Schedule] returns without
    error is an element of the snapshot taken from the datastore at the
    entry of the call, and so the view of a handle of the pod map. *)
Theorem Schedule_returns_snapshot_pod (config : Config)
    (requestedLoRA : LLMRequest → option string) (idx : Indexer)
    (ds : datastore) (r : nat) (req : option LLMRequest) (pod : PodMetrics) :
  Scheduler.Schedule (Scheduler.NewScheduler config requestedLoRA idx ds) r req
  = Returns (Some pod, None) →
  pod ∈ ToSchedulerPodMetrics (Datastore.PodGetAll ds)
  ∧ ∃ k h, pods ds !! k = Some h
           ∧ pod = {| pm_Pod := h_Pod h; pm_Metrics := h_Metrics h |}.
Proof.
  intros Hsched.
  assert (Hin : pod ∈ ToSchedulerPodMetrics (Datastore.PodGetAll ds)).
  { revert Hsched. unfold Scheduler.Schedule.
    destruct req as [rq|]; [|done].
    set (s := Scheduler.NewScheduler config requestedLoRA idx ds).
    change (sched_datastore s) with ds.
    set (snapshot := ToSchedulerPodMetrics (Datastore.PodGetAll ds)).
    change (PodsSnapshot (NewContext (Some rq) snapshot)) with snapshot.
    set (sCtx := NewContext (Some rq) snapshot).
    set (filter := if Critical rq then criticalRequestFilter s
                   else sheddableRequestFilter_ s).
    assert (Hsound : Filter_sound filter).
    { subst filter s. destruct (Critical rq); simpl;
        [apply lowLatencyFilter_sound|apply sheddableRequestFilter_sound]. }
    pose proof (Filter_Filter_subset filter Hsound sCtx snapshot) as Hsub.
    destruct (Filter_Filter filter sCtx snapshot) as [filtered err].
    simpl in Hsub.
    destruct (bool_decide (is_Some err) || (length filtered =? 0)%nat); [done|].
    destruct (ScorerManager.ScoreTargets r (scorerMng s) sCtx filtered)
      as [[sel e]|] eqn:Hsel; [|done].
    rewrite obind_Returns. simpl.
    destruct e as [e|]; [done|]. intros [= ->].
    apply Hsub. by apply (ScorerManager_ScoreTargets_in _ _ _ _ _ _ Hsel). }
  split; [exact Hin|]. by apply snapshot_from_store.
Qed.

Lemma Schedule_returns_snapshot_pod_witness :
  let ka := mkNamespacedName "default" "pod-a" in
  let kb := mkNamespacedName "default" "pod-b" in
  let ha := mkHandle (mkPod ka "10.0.0.1:8000") (mkMetrics 1 0.2 [] 4) in
  let hb := mkHandle (mkPod kb "10.0.0.2:8000") (mkMetrics 0 0.1 [] 4) in
  let ds := mkDatastore None ∅ (<[ka := ha]> {[ kb := hb ]}) ∅ in
  let idx : Indexer :=
    λ _ _ _, ([mkIndexerPodScore "10.0.0.1:8000" 0.9;
               mkIndexerPodScore "10.0.0.2:8000" 0.1], None) in
  let pod := {| pm_Pod := h_Pod hb; pm_Metrics := h_Metrics hb |} in
  Scheduler.Schedule (Scheduler.NewScheduler defaultConfig (λ _, None) idx ds) 0
    (Some (mkLLMRequest "m" "hello" "" true)) = Returns (Some pod, None)
  ∧ pod ∈ ToSchedulerPodMetrics (Datastore.PodGetAll ds).
Proof.
  intros ka kb ha hb ds idx pod.
  assert (H : Scheduler.Schedule
                (Scheduler.NewScheduler defaultConfig (λ _, None) idx ds) 0
                (Some (mkLLMRequest "m" "hello" "" true))
              = Returns (Some pod, None)) by (vm_compute; reflexivity).
  split; [exact H|].
  exact (proj1 (Schedule_returns_snapshot_pod defaultConfig (λ _, None) idx ds 0
                  (Some (mkLLMRequest "m" "hello" "" true)) pod H)).
Defined.

(** The separator matters for C3: with a separator inside a namespace two
    different namespaced names render alike, and the scorer, which
    compares the renderings, scores the pod 1.0. *)
Example SessionAffinity_rendering_collision :
  let stored := mkPod (mkNamespacedName "a" "b/c") "10.0.0.1:8000" in
  let other := mkPodMetrics (mkPod (mkNamespacedName "a/b" "c") "10.0.0.2:8000")
                            (mkMetrics 0 0 [] 4) in
  let ds := Datastore.SetPodForSession 0 "s1" (Some stored)
              (mkDatastore None ∅ ∅ ∅) in
  pod_NamespacedName stored ≠ pm_NamespacedName other
  ∧ SessionAffinityScorer.ScoreTargets ds
      (NewContext (Some (mkLLMRequest "m" "hello" "s1" true)) [other]) [other]
    = Returns ([{| Score := 1; ps_Pod := Some other |}], None).
Proof. intros stored other ds. split; [discriminate|reflexivity]. Qed.

(** * Further properties of the code *)

(** ** Pool and sessions *)

(** X1. [PoolGet] returns the pool that [PoolSet] stored last, and fails
    with [errPoolNotSynced] exactly when no pool is set: on a new
    datastore, after [PoolSet(nil)] and after [Clear]. [PoolSet] touches
    nothing but the pool. *)
Theorem PoolSet_PoolGet_roundtrip (ds : datastore) (p : InferencePool)
    (q : option InferencePool) :
  Datastore.PoolGet (Datastore.PoolSet (Some p) ds) = (Some p, None)
  ∧ Datastore.PoolGet (Datastore.PoolSet (Some p) (Datastore.PoolSet q ds))
    = (Some p, None)
  ∧ Datastore.PoolGet (Datastore.PoolSet None ds)
    = (None, Some Datastore.errPoolNotSynced)
  ∧ Datastore.PoolGet (Datastore.Clear (Datastore.PoolSet (Some p) ds))
    = (None, Some Datastore.errPoolNotSynced)
  ∧ Datastore.PoolGet Datastore.NewDatastore
    = (None, Some Datastore.errPoolNotSynced)
  ∧ ((Datastore.PoolGet ds).2 = None ↔ Datastore.PoolHasSynced ds = true)
  ∧ ((Datastore.PoolGet ds).2 = Some Datastore.errPoolNotSynced
     ↔ Datastore.PoolHasSynced ds = false)
  ∧ models (Datastore.PoolSet q ds) = models ds
  ∧ pods (Datastore.PoolSet q ds) = pods ds
  ∧ sessions (Datastore.PoolSet q ds) = sessions ds.
Proof.
  repeat (split; [reflexivity|]).
  split; [|split; [|done]];
    unfold Datastore.PoolGet; destruct (Datastore.PoolHasSynced ds); simpl;
    split; intros H; done.
Qed.

(** X2. [GetPodForSession] returns for a session id the pod that the
    last [SetPodForSession] on that id stored (nil included), whatever
    was there before, and is not changed by a [SetPodForSession] on
    another id; a value of the wrong shape reads as nil. [SetPodForSession]
    touches nothing but the session table. *)
Theorem SetPodForSession_GetPodForSession (ds : datastore) (now : Z)
    (sessionID other : string) (p : option Pod) :
  Datastore.GetPodForSession sessionID
    (Datastore.SetPodForSession now sessionID p ds) = p
  ∧ (other ≠ sessionID →
     Datastore.GetPodForSession other
       (Datastore.SetPodForSession now sessionID p ds)
     = Datastore.GetPodForSession other ds)
  ∧ (sessions ds !! sessionID = Some OtherValue →
     Datastore.GetPodForSession sessionID ds = None)
  ∧ (sessions ds !! sessionID = None →
     Datastore.GetPodForSession sessionID ds = None)
  ∧ pool (Datastore.SetPodForSession now sessionID p ds) = pool ds
  ∧ models (Datastore.SetPodForSession now sessionID p ds) = models ds
  ∧ pods (Datastore.SetPodForSession now sessionID p ds) = pods ds.
Proof.
  unfold Datastore.GetPodForSession, Datastore.SetPodForSession. simpl.
  split; [by rewrite lookup_insert_eq|].
  split; [intros Hne; by rewrite lookup_insert_ne|].
  split; [by intros ->|]. split; [by intros ->|]. done.
Qed.

Lemma SetPodForSession_GetPodForSession_witness :
  let a := mkPod (mkNamespacedName "default" "pod-a") "10.0.0.1:8000" in
  let ds := Datastore.SetPodForSession 5 "s2" None Datastore.NewDatastore in
  Datastore.GetPodForSession "s2" (Datastore.SetPodForSession 9 "s1" (Some a) ds)
  = Datastore.GetPodForSession "s2" ds.
Proof.
  intros a ds.
  apply (proj1 (proj2 (SetPodForSession_GetPodForSession ds 9 "s1" "s2" (Some a)))).
  discriminate.
Defined.

(** *** The session sweep *)

Lemma sweepStep_expired (now ka : Z) (t : gmap string sessionValue)
    (kv : string * sessionValue) :
  Datastore.sweepStep now ka t kv
  = if expired now ka kv.2 then delete kv.1 t else t.
Proof. unfold Datastore.sweepStep, expired. by destruct (kv.2). Qed.

Lemma sweep_fold_absent (now ka : Z) (l : list (string * sessionValue))
    (t : gmap string sessionValue) (k : string) :
  t !! k = None →
  fold_left (Datastore.sweepStep now ka) l t !! k = None.
Proof.
  revert t. induction l as [|kv l IH]; intros t Ht; [done|].
  simpl. apply IH. rewrite sweepStep_expired.
  destruct (expired now ka kv.2); [|done].
  destruct (decide (kv.1 = k)) as [->|Hne].
  - apply lookup_delete_eq.
  - by rewrite lookup_delete_ne.
Qed.

Lemma sweep_fold_kept (now ka : Z) (l : list (string * sessionValue))
    (t : gmap string sessionValue) (k : string) :
  (∀ v, (k, v) ∈ l → expired now ka v = false) →
  fold_left (Datastore.sweepStep now ka) l t !! k = t !! k.
Proof.
  revert t. induction l as [|[k' v'] l IH]; intros t Hl; [done|].
  simpl. rewrite IH by (intros v Hv; apply Hl; by right).
  rewrite sweepStep_expired. simpl.
  destruct (expired now ka v') eqn:He; [|done].
  destruct (decide (k' = k)) as [->|Hne].
  - rewrite (Hl v') in He by (by left). done.
  - by rewrite lookup_delete_ne.
Qed.

Lemma sweep_fold_removed (now ka : Z) (l : list (string * sessionValue))
    (t : gmap string sessionValue) (k : string) (v : sessionValue) :
  (k, v) ∈ l → expired now ka v = true →
  fold_left (Datastore.sweepStep now ka) l t !! k = None.
Proof.
  revert t. induction l as [|[k' v'] l IH]; intros t Hin He.
  - by apply elem_of_nil in Hin.
  - simpl. apply elem_of_cons in Hin as [[= <- <-]|Hin]; [|by apply IH].
    apply sweep_fold_absent. rewrite sweepStep_expired. simpl. rewrite He.
    apply lookup_delete_eq.
Qed.

(** The session table after a sweep: the entries that are not expired,
    as they were. *)
Lemma cleanupSessions_tick_lookup (now ka : Z) (ds : datastore) (k : string) :
  sessions (Datastore.cleanupSessions_tick now ka ds) !! k
  = match sessions ds !! k with
    | Some v => if expired now ka v then None else Some v
    | None => None
    end.
Proof.
  unfold Datastore.cleanupSessions_tick. simpl.
  destruct (sessions ds !! k) as [v|] eqn:Hk.
  - destruct (expired now ka v) eqn:He.
    + apply (sweep_fold_removed now ka _ _ k v); [|done].
      by apply elem_of_map_to_list.
    + rewrite sweep_fold_kept; [done|].
      intros v' Hv'. apply elem_of_map_to_list in Hv'.
      rewrite Hk in Hv'. by injection Hv' as <-.
  - by apply sweep_fold_absent.
Qed.

Lemma Time_Sub_gt (ka t u : Z) :
  Datastore.minDuration ≤ ka < Datastore.maxDuration →
  (ka <? Datastore.Time_Sub t u) = (ka <? t - u).
Proof.
  unfold Datastore.Time_Sub, Datastore.minDuration, Datastore.maxDuration.
  intros Hka.
  destruct (Z.ltb_spec (t - u) (- 2 ^ 63)); [|destruct (Z.ltb_spec (2 ^ 63 - 1) (t - u))].
  - destruct (Z.ltb_spec ka (- 2 ^ 63)), (Z.ltb_spec ka (t - u)); lia.
  - destruct (Z.ltb_spec ka (2 ^ 63 - 1)), (Z.ltb_spec ka (t - u)); lia.
  - done.
Qed.



(** X4. A session committed at [t0] and not used since is returned by
    [GetPodForSession] after a sweep with the keep-alive of the source
    (60 minutes) at [now] exactly when [now - t0] is at most 60 minutes;
    after a later sweep it reads as nil. Other sessions are not affected
    by the commit. *)
Theorem session_survives_sweep_iff_fresh (ds : datastore) (t0 now : Z)
    (sessionID : string) (p : Pod) :
  Datastore.GetPodForSession sessionID
    (Datastore.cleanupSessions_tick now Datastore.sessionKeepAliveTime
       (Datastore.SetPodForSession t0 sessionID (Some p) ds))
  = (if now - t0 <=? 60 * 60 * 1000000000 then Some p else None).
Proof.
  assert (Hka : Datastore.minDuration ≤ Datastore.sessionKeepAliveTime
                < Datastore.maxDuration).
  { unfold Datastore.minDuration, Datastore.maxDuration,
      Datastore.sessionKeepAliveTime, Datastore.Minute. lia. }
  unfold Datastore.GetPodForSession.
  rewrite cleanupSessions_tick_lookup.
  unfold Datastore.SetPodForSession. simpl. rewrite lookup_insert_eq. simpl.
  rewrite (Time_Sub_gt _ _ _ Hka).
  change Datastore.sessionKeepAliveTime with (60 * 60 * 1000000000).
  destruct (Z.ltb_spec (60 * 60 * 1000000000) (now - t0)),
           (Z.leb_spec (now - t0) (60 * 60 * 1000000000)); simpl; try done; lia.
Qed.

(** ** Model registry *)

Lemma ModelDelete_range_cases (order : list (string * InferenceModel))
    (n : NamespacedName) (ds : datastore) :
  (Datastore.ModelDelete_range order n ds = (ds, None)
   ∧ ∀ k m, (k, m) ∈ order → ¬ same_object n m)
  ∨ ∃ k m, (k, m) ∈ order ∧ same_object n m
      ∧ Datastore.ModelDelete_range order n ds
        = ({| pool := pool ds; models := delete (im_ModelName m) (models ds);
              pods := pods ds; sessions := sessions ds |}, Some m).
Proof.
  unfold Datastore.ModelDelete_range.
  destruct (List.find _ order) as [[k m]|] eqn:Hf.
  - right. apply find_some in Hf as [Hin Hm]. simpl in Hm.
    apply andb_true_iff in Hm as [H1 H2].
    apply String.eqb_eq in H1, H2.
    exists k, m. split; [by apply list_elem_of_In|]. by split.
  - left. split; [done|]. intros k m Hin [H1 H2].
    pose proof (find_none _ _ Hf (k, m) (proj1 (list_elem_of_In _ _) Hin)) as Hn.
    simpl in Hn. rewrite H1, H2, !String.eqb_refl in Hn. done.
Qed.

(** X5. [ModelDelete], whatever the order in which the map is ranged
    over: it returns nil exactly when no registered model has that
    namespace and name, and then changes nothing; otherwise it returns a
    registered model of that namespace and name and deletes the key
    [m.Spec.ModelName], touching nothing else. Where every entry is
    stored under its own model name, the returned model is the one that
    was removed: it cannot be looked up any more and every other model
    name reads as before. *)
Theorem ModelDelete_spec (order : list (string * InferenceModel))
    (n : NamespacedName) (ds : datastore) :
  order ≡ₚ map_to_list (models ds) →
  let ds' := (Datastore.ModelDelete_range order n ds).1 in
  let r := (Datastore.ModelDelete_range order n ds).2 in
  (r = None ↔ ∀ k m, models ds !! k = Some m → ¬ same_object n m)
  ∧ (r = None → ds' = ds)
  ∧ (∀ m, r = Some m →
       same_object n m
       ∧ (∃ k, models ds !! k = Some m)
       ∧ models ds' = delete (im_ModelName m) (models ds)
       ∧ pool ds' = pool ds ∧ pods ds' = pods ds ∧ sessions ds' = sessions ds)
  ∧ (models_keyed ds → ∀ m, r = Some m →
       Datastore.ModelGet (im_ModelName m) ds = Some m
       ∧ Datastore.ModelGet (im_ModelName m) ds' = None
       ∧ ∀ name, name ≠ im_ModelName m →
           Datastore.ModelGet name ds' = Datastore.ModelGet name ds).
Proof.
  intros Hperm ds' r.
  assert (Hin : ∀ k m, (k, m) ∈ order ↔ models ds !! k = Some m).
  { intros k m. rewrite Hperm. apply elem_of_map_to_list. }
  destruct (ModelDelete_range_cases order n ds)
    as [[Heq Hnone]|(k & m & Hkm & Hsame & Heq)];
    subst ds' r; rewrite Heq; simpl.
  - split; [|split; [done|split; [done|done]]].
    split; [|done]. intros _ k m Hk. apply (Hnone k m). by apply Hin.
  - split; [|split; [done|split]].
    + split; [done|]. intros Hno. exfalso.
      apply (Hno k m); [by apply Hin|done].
    + intros m' [= <-]. split; [done|]. split; [|done].
      exists k. by apply Hin.
    + intros Hkeyed m' [= <-]. apply Hin in Hkm.
      pose proof (Hkeyed k m Hkm) as Hk. unfold Datastore.ModelGet. simpl.
      split; [by rewrite Hk|]. split; [apply lookup_delete_eq|].
      intros name Hne. by rewrite lookup_delete_ne.
Qed.

Lemma ModelDelete_spec_witness :
  let m1 := mkInferenceModel "m" "ns1" 1 "model" in
  let ds := (Datastore.ModelSetIfOlder m1 Datastore.NewDatastore).1 in
  let n := mkNamespacedName "ns1" "m" in
  (Datastore.ModelDelete n ds).2 = None
  ↔ ∀ k m, models ds !! k = Some m → ¬ same_object n m.
Proof.
  intros m1 ds n.
  exact (proj1 (ModelDelete_spec (map_to_list (models ds)) n ds
                  (reflexivity _))).
Defined.

Lemma resyncStep_liveb (poolName modelName : string)
    (oldest : option InferenceModel) (lm : Datastore.ListedModel) :
  Datastore.resyncStep poolName modelName oldest lm
  = if liveb poolName modelName lm then
      match oldest with
      | None => Some (Datastore.lm_Model lm)
      | Some o =>
          if im_CreationTimestamp (Datastore.lm_Model lm) <? im_CreationTimestamp o
          then Some (Datastore.lm_Model lm) else oldest
      end
    else oldest.
Proof.
  unfold Datastore.resyncStep, liveb, Datastore.Time_Before.
  destruct (String.eqb (im_ModelName _) modelName),
           (String.eqb (Datastore.lm_PoolRefName lm) poolName),
           (Datastore.lm_DeletionTimestampIsZero lm); done.
Qed.

(** The loop of [ModelResync]: the oldest of the accumulator and the
    live items. *)
Lemma resync_fold (poolName modelName : string)
    (items : list Datastore.ListedModel) (acc : option InferenceModel) :
  match fold_left (Datastore.resyncStep poolName modelName) items acc with
  | None =>
      acc = None ∧ ∀ lm, lm ∈ items → liveb poolName modelName lm = false
  | Some oldest =>
      (acc = Some oldest
       ∨ ∃ lm, lm ∈ items ∧ liveb poolName modelName lm = true
               ∧ Datastore.lm_Model lm = oldest)
      ∧ (∀ o, acc = Some o → im_CreationTimestamp oldest ≤ im_CreationTimestamp o)
      ∧ ∀ lm, lm ∈ items → liveb poolName modelName lm = true →
          im_CreationTimestamp oldest
          ≤ im_CreationTimestamp (Datastore.lm_Model lm)
  end.
Proof.
  revert acc. induction items as [|lm items IH]; intros acc; simpl.
  - destruct acc as [o|].
    + split; [by left|]. split; [by intros ? [= ->]|].
      intros lm Hlm. by apply elem_of_nil in Hlm.
    + split; [done|]. intros lm Hlm. by apply elem_of_nil in Hlm.
  - specialize (IH (Datastore.resyncStep poolName modelName acc lm)).
    rewrite resyncStep_liveb in IH |- *.
    destruct (fold_left _ items _) as [oldest|].
    + destruct IH as (Hfrom & Hacc & Hall).
      destruct (liveb poolName modelName lm) eqn:Hlive.
      * (* the item is live *)
        assert (Hstep : ∃ o', (match acc with
                  | None => Some (Datastore.lm_Model lm)
                  | Some o =>
                      if im_CreationTimestamp (Datastore.lm_Model lm)
                         <? im_CreationTimestamp o
                      then Some (Datastore.lm_Model lm) else acc
                  end) = Some o'
                  ∧ (o' = Datastore.lm_Model lm ∨ acc = Some o')
                  ∧ im_CreationTimestamp o'
                    ≤ im_CreationTimestamp (Datastore.lm_Model lm)
                  ∧ ∀ o, acc = Some o →
                      im_CreationTimestamp o' ≤ im_CreationTimestamp o).
        { destruct acc as [o|].
          - destruct (Z.ltb_spec (im_CreationTimestamp (Datastore.lm_Model lm))
                                 (im_CreationTimestamp o)).
            + eexists. split; [done|]. split; [by left|]. split; [lia|].
              intros ? [= <-]. lia.
            + eexists. split; [done|]. split; [by right|]. split; [lia|].
              intros ? [= <-]. lia.
          - eexists. split; [done|]. split; [by left|]. split; [lia|]. done. }
        destruct Hstep as (o' & Ho' & Horigin & Hle & Hleacc).
        rewrite Ho' in Hfrom, Hacc. specialize (Hacc o' eq_refl).
        split; [|split].
        -- destruct Hfrom as [Hsame|(lm' & Hin & Hl & Hm)].
           ++ injection Hsame as <-.
              destruct Horigin as [-> | ->]; [|by left].
              right. exists lm. split; [by left|done].
           ++ right. exists lm'. split; [by right|done].
        -- intros o Ho. specialize (Hleacc o Ho). lia.
        -- intros lm' [->|Hin]%elem_of_cons Hl; [lia|by apply Hall].
      * split; [|split; [done|]].
        -- destruct Hfrom as [->|(lm' & Hin & Hl & Hm)]; [by left|].
           right. exists lm'. split; [by right|done].
        -- intros lm' [->|Hin]%elem_of_cons Hl; [congruence|by apply Hall].
    + destruct IH as [Hacc Hall].
      destruct (liveb poolName modelName lm) eqn:Hlive.
      * exfalso. destruct acc as [o|]; [|done].
        by destruct (im_CreationTimestamp _ <? im_CreationTimestamp o).
      * split; [done|]. intros lm' [->|Hin]%elem_of_cons; [done|by apply Hall].
Qed.

(** X6. [ModelResync] with a pool set. When listing fails it returns
    false and the error of the client wrapped, and changes nothing. When
    no listed item is live (of the model name, of this pool, not marked
    for deletion; an empty list included) it returns false without error
    and changes nothing, an entry already under that name included.
    Otherwise it returns true and installs under the model name a live
    item than which no live item was created earlier, touching nothing
    else. *)
Theorem ModelResync_spec (c : Datastore.ModelClient) (modelName : string)
    (ds : datastore) (p : InferencePool) :
  pool ds = Some p →
  let items := (c modelName (pool_Namespace p)).1 in
  let err := (c modelName (pool_Namespace p)).2 in
  (∀ e, err = Some e →
     Datastore.ModelResync c modelName ds
     = Returns (ds, (false,
         Some (fmt_wrapError "listing models that match the modelName %s: %w" e))))
  ∧ (err = None →
     (∀ lm, lm ∈ items → liveb (pool_Name p) modelName lm = false) →
     Datastore.ModelResync c modelName ds = Returns (ds, (false, None)))
  ∧ (err = None →
     (∃ lm, lm ∈ items ∧ liveb (pool_Name p) modelName lm = true) →
     ∃ oldest ds',
       Datastore.ModelResync c modelName ds = Returns (ds', (true, None))
       ∧ Datastore.ModelGet modelName ds' = Some (Datastore.lm_Model oldest)
       ∧ oldest ∈ items ∧ liveb (pool_Name p) modelName oldest = true
       ∧ (∀ lm, lm ∈ items → liveb (pool_Name p) modelName lm = true →
            im_CreationTimestamp (Datastore.lm_Model oldest)
            ≤ im_CreationTimestamp (Datastore.lm_Model lm))
       ∧ (∀ name, name ≠ modelName →
            Datastore.ModelGet name ds' = Datastore.ModelGet name ds)
       ∧ pool ds' = pool ds ∧ pods ds' = pods ds ∧ sessions ds' = sessions ds).
Proof.
  intros Hpool items err. subst items err.
  unfold Datastore.ModelResync. rewrite Hpool.
  destruct (c modelName (pool_Namespace p)) as [items err]. simpl.
  pose proof (resync_fold (pool_Name p) modelName items None) as Hfold.
  split; [|split].
  - intros e ->. done.
  - intros -> Hnone. destruct items as [|lm items]; [done|].
    cbn [length Nat.eqb].
    destruct (fold_left _ (lm :: items) None) as [oldest|]; [|done].
    destruct Hfold as ([Habs|(lm' & Hin & Hl & _)] & _); [done|].
    rewrite (Hnone lm' Hin) in Hl. done.
  - intros -> (lm0 & Hin0 & Hl0). destruct items as [|lm items].
    { by apply elem_of_nil in Hin0. }
    cbn [length Nat.eqb].
    destruct (fold_left _ (lm :: items) None) as [oldest|].
    + destruct Hfold as ([Habs|(lm' & Hin & Hl & Hm)] & _ & Hall); [done|].
      exists lm'. eexists. split; [reflexivity|].
      unfold Datastore.ModelGet. simpl.
      split; [by rewrite lookup_insert_eq, Hm|]. split; [done|]. split; [done|].
      split; [rewrite Hm; exact Hall|]. split; [|done].
      intros name Hne. by rewrite lookup_insert_ne.
    + destruct Hfold as [_ Hall]. rewrite (Hall lm0 Hin0) in Hl0. done.
Qed.

(** Scenario: of two live models of one name, the older is installed. *)
Lemma ModelResync_spec_witness :
  let p := mkInferencePool "pool" "default" ∅ in
  let ds := Datastore.PoolSet (Some p) Datastore.NewDatastore in
  let m1 := mkInferenceModel "m1" "default" 1 "model" in
  let m2 := mkInferenceModel "m2" "default" 2 "model" in
  let c : Datastore.ModelClient :=
    λ _ _, ([Datastore.mkListedModel m2 "pool" true;
             Datastore.mkListedModel m1 "pool" true], None) in
  ∃ oldest ds',
    Datastore.ModelResync c "model" ds = Returns (ds', (true, None))
    ∧ Datastore.ModelGet "model" ds' = Some (Datastore.lm_Model oldest).
Proof.
  intros p ds m1 m2 c.
  destruct (proj2 (proj2 (ModelResync_spec c "model" ds p eq_refl)) eq_refl)
    as (oldest & ds' & Hret & Hget & _).
  { exists (Datastore.mkListedModel m2 "pool" true). split; [by left|done]. }
  by exists oldest, ds'.
Defined.

(** [ModelResync] without a pool panics before it lists anything. *)
Lemma ModelResync_no_pool (c : Datastore.ModelClient) (modelName : string)
    (ds : datastore) :
  pool ds = None → Datastore.ModelResync c modelName ds = Panics NilDereference.
Proof. intros H. unfold Datastore.ModelResync. by rewrite H. Qed.

Lemma ModelSetIfOlder_keyed (m : InferenceModel) (ds : datastore) :
  models_keyed ds → models_keyed (Datastore.ModelSetIfOlder m ds).1.
Proof.
  intros Hk. destruct (older_other_dec m ds) as [Ho|Hno].
  - by rewrite (ModelSetIfOlder_kept m ds Ho).
  - rewrite (ModelSetIfOlder_installed m ds Hno). simpl.
    intros k m'. simpl. destruct (decide (im_ModelName m = k)) as [<-|Hne].
    + rewrite lookup_insert_eq. by intros [= <-].
    + rewrite lookup_insert_ne by done. apply Hk.
Qed.

Lemma ModelDelete_range_keyed (order : list (string * InferenceModel))
    (n : NamespacedName) (ds : datastore) :
  models_keyed ds → models_keyed (Datastore.ModelDelete_range order n ds).1.
Proof.
  intros Hk.
  destruct (ModelDelete_range_cases order n ds)
    as [[-> _]|(k & m & _ & _ & ->)]; [done|].
  intros k' m' Hl. simpl in Hl.
  apply lookup_delete_Some in Hl as [_ Hl]. by apply Hk.
Qed.

Lemma ModelResync_keyed (c : Datastore.ModelClient) (modelName : string)
    (ds : datastore) (r : datastore * (bool * option error)) :
  models_keyed ds →
  Datastore.ModelResync c modelName ds = Returns r → models_keyed r.1.
Proof.
  intros Hk. unfold Datastore.ModelResync.
  destruct (pool ds) as [p|]; [|done].
  destruct (c modelName (pool_Namespace p)) as [items [e|]].
  { by intros [= <-]. }
  destruct (length items =? 0)%nat; [by intros [= <-]|].
  pose proof (resync_fold (pool_Name p) modelName items None) as Hfold.
  destruct (fold_left _ items None) as [oldest|]; [|by intros [= <-]].
  intros [= <-]. simpl.
  destruct Hfold as ([Habs|(lm & _ & Hl & Hm)] & _); [done|].
  intros k m. simpl. destruct (decide (modelName = k)) as [<-|Hne].
  - rewrite lookup_insert_eq. intros [= <-]. rewrite <- Hm.
    unfold liveb in Hl. apply andb_true_iff in Hl as [Hl _].
    apply andb_true_iff in Hl as [Hl _]. by apply String.eqb_eq in Hl.
  - rewrite lookup_insert_ne by done. apply Hk.
Qed.

(** X7. Every sequence of [PoolSet], [ModelSetIfOlder], [ModelDelete]
    (with any order of ranging over the map), [ModelResync] (with any
    answers of the client) and [Clear] that runs from a new datastore
    without panic leaves a registry in which every model is stored under
    its own model name: [ModelGet name] returns nothing or a model of
    that name. *)
Theorem registry_models_keyed (ops : list registryOp) (ds' : datastore) :
  runOps ops Datastore.NewDatastore = Returns ds' →
  models_keyed ds'
  ∧ ∀ name m, Datastore.ModelGet name ds' = Some m → im_ModelName m = name.
Proof.
  intros Hrun.
  assert (Hgen : ∀ ds, models_keyed ds → runOps ops ds = Returns ds' →
                       models_keyed ds').
  { clear Hrun. induction ops as [|op ops IH]; intros ds Hk; simpl.
    - by intros [= <-].
    - destruct (runOp op ds) as [ds1|] eqn:Hop; [|done].
      rewrite obind_Returns. apply IH.
      destruct op as [p|m|order n|c modelName|]; simpl in Hop.
      + injection Hop as <-. exact Hk.
      + injection Hop as <-. by apply ModelSetIfOlder_keyed.
      + injection Hop as <-. by apply ModelDelete_range_keyed.
      + destruct (Datastore.ModelResync c modelName ds) as [r|] eqn:Hr; [|done].
        rewrite obind_Returns in Hop. injection Hop as <-.
        by apply (ModelResync_keyed c modelName ds r).
      + injection Hop as <-. intros k m Hl. simpl in Hl.
        by rewrite lookup_empty in Hl. }
  assert (Hk : models_keyed ds').
  { apply (Hgen Datastore.NewDatastore); [|done].
    intros k m Hl. simpl in Hl. by rewrite lookup_empty in Hl. }
  split; [exact Hk|]. intros name m. apply Hk.
Qed.

Lemma registry_models_keyed_witness :
  let m1 := mkInferenceModel "m" "ns1" 1 "model" in
  let m2 := mkInferenceModel "m" "ns2" 2 "model" in
  let ops := [OpModelSetIfOlder m1; OpModelSetIfOlder m2;
              OpModelDelete [("model", m1)] (mkNamespacedName "ns1" "m");
              OpModelSetIfOlder m2] in
  ∃ ds', runOps ops Datastore.NewDatastore = Returns ds' ∧ models_keyed ds'.
Proof.
  intros m1 m2 ops. eexists. split; [reflexivity|].
  exact (proj1 (registry_models_keyed ops _ eq_refl)).
Defined.

(** ** Pod map *)

(** X8. [PodList] returns exactly the stored handles that satisfy the
    predicate: a handle is listed if and only if it is stored under some
    key and the predicate holds for it; [PodGetAll] lists every stored
    handle, one entry per key, and a new or cleared datastore lists
    none. *)
Theorem PodList_spec (predicate : PodMetricsHandle → bool) (ds : datastore)
    (h : PodMetricsHandle) :
  (h ∈ Datastore.PodList predicate ds
   ↔ predicate h = true ∧ ∃ k, pods ds !! k = Some h)
  ∧ (h ∈ Datastore.PodGetAll ds ↔ ∃ k, pods ds !! k = Some h)
  ∧ (h ∈ Datastore.PodList predicate ds → h ∈ Datastore.PodGetAll ds)
  ∧ length (Datastore.PodGetAll ds) = size (pods ds)
  ∧ (length (Datastore.PodList predicate ds) ≤ size (pods ds))%nat
  ∧ Datastore.PodList predicate (Datastore.Clear ds) = [].
Proof.
  assert (Hlist : ∀ pr, h ∈ Datastore.PodList pr ds
                        ↔ pr h = true ∧ ∃ k, pods ds !! k = Some h).
  { intros pr. unfold Datastore.PodList. rewrite filter_elem_of.
    rewrite list_elem_of_fmap. split.
    - intros [([k h'] & -> & Hin) Hp]. split; [done|].
      exists k. by apply elem_of_map_to_list.
    - intros [Hp [k Hk]]. split; [|done].
      exists (k, h). split; [done|]. by apply elem_of_map_to_list. }
  assert (Hall : h ∈ Datastore.PodGetAll ds ↔ ∃ k, pods ds !! k = Some h).
  { unfold Datastore.PodGetAll. rewrite Hlist. tauto. }
  split; [apply Hlist|]. split; [exact Hall|]. split.
  { intros [_ Hk]%Hlist. by apply Hall. }
  split; [|split].
  - unfold Datastore.PodGetAll, Datastore.PodList.
    rewrite forallb_filter_id.
    + by rewrite length_fmap, length_map_to_list.
    + by apply forallb_forall.
  - unfold Datastore.PodList.
    etrans; [apply List.filter_length_le|].
    by rewrite length_fmap, length_map_to_list.
  - unfold Datastore.PodList. simpl. by rewrite map_to_list_empty.
Qed.

Lemma PodUpdateOrAddIfNotExist_eq (b : Datastore.Backend)
    (pod : Datastore.corev1_Pod) (ds : datastore) :
  Datastore.PodUpdateOrAddIfNotExist b pod ds
  = ({| pool := pool ds; models := models ds;
        pods := <[Datastore.cp_NamespacedName pod :=
                    Datastore.UpdatePod b pod
                      (default (Datastore.NewPodMetrics b pod)
                         (pods ds !! Datastore.cp_NamespacedName pod))]> (pods ds);
        sessions := sessions ds |},
     bool_decide (is_Some (pods ds !! Datastore.cp_NamespacedName pod))).
Proof.
  unfold Datastore.PodUpdateOrAddIfNotExist.
  destruct (pods ds !! Datastore.cp_NamespacedName pod) as [h|]; reflexivity.
Qed.

(** X9. [PodUpdateOrAddIfNotExist] returns whether the namespaced name
    of the pod was stored already. Afterwards that key holds the
    updated handle (the existing one, or a new one from the factory),
    every other key holds what it held, and pool, models and sessions
    are untouched; a second call with the same pod returns true and adds
    no key. *)
Theorem PodUpdateOrAddIfNotExist_spec (b : Datastore.Backend)
    (pod : Datastore.corev1_Pod) (ds : datastore) :
  let k := Datastore.cp_NamespacedName pod in
  let ds' := (Datastore.PodUpdateOrAddIfNotExist b pod ds).1 in
  let existed := (Datastore.PodUpdateOrAddIfNotExist b pod ds).2 in
  (existed = true ↔ is_Some (pods ds !! k))
  ∧ pods ds' !! k
    = Some (Datastore.UpdatePod b pod
              (default (Datastore.NewPodMetrics b pod) (pods ds !! k)))
  ∧ (∀ k', k' ≠ k → pods ds' !! k' = pods ds !! k')
  ∧ dom (pods ds') = {[ k ]} ∪ dom (pods ds)
  ∧ pool ds' = pool ds ∧ models ds' = models ds ∧ sessions ds' = sessions ds
  ∧ (Datastore.PodUpdateOrAddIfNotExist b pod ds').2 = true
  ∧ dom (pods (Datastore.PodUpdateOrAddIfNotExist b pod ds').1) = dom (pods ds')
  ∧ size (pods (Datastore.PodUpdateOrAddIfNotExist b pod ds').1) = size (pods ds').
Proof.
  intros k ds' existed. subst ds' existed.
  rewrite !PodUpdateOrAddIfNotExist_eq. fold k. simpl.
  split; [apply bool_decide_eq_true|].
  split; [apply lookup_insert_eq|].
  split; [intros k' Hne; by rewrite lookup_insert_ne|].
  split; [apply dom_insert_L|].
  do 3 (split; [done|]).
  split.
  { apply bool_decide_eq_true. rewrite lookup_insert_eq. by eexists. }
  assert (Hdom : dom (<[k := Datastore.UpdatePod b pod
                          (default (Datastore.NewPodMetrics b pod)
                             (<[k := Datastore.UpdatePod b pod
                                  (default (Datastore.NewPodMetrics b pod)
                                     (pods ds !! k))]> (pods ds) !! k))]>
                     (<[k := Datastore.UpdatePod b pod
                          (default (Datastore.NewPodMetrics b pod)
                             (pods ds !! k))]> (pods ds)))
                 = dom (<[k := Datastore.UpdatePod b pod
                          (default (Datastore.NewPodMetrics b pod)
                             (pods ds !! k))]> (pods ds))).
  { rewrite !dom_insert_L. by rewrite (assoc_L (∪)), (idemp_L (∪)). }
  split; [exact Hdom|]. by rewrite <- !size_dom, Hdom.
Qed.

(** *** [PodResyncAll] *)

Lemma active_insert (a : gmap string bool) (n name : string) :
  Datastore.active (<[n := true]> a) name = true
  ↔ n = name ∨ Datastore.active a name = true.
Proof.
  unfold Datastore.active. destruct (decide (n = name)) as [->|Hne].
  - rewrite lookup_insert_eq. simpl. tauto.
  - rewrite lookup_insert_ne by done. split; [by right|]. by intros [?|?].
Qed.

(** The first loop: the names of the ready pods are active, the ready
    pods are stored, and no other key is touched. *)
Lemma resync_add_fold (b : Datastore.Backend) (items : list Datastore.corev1_Pod)
    (a0 : gmap string bool) (ds0 : datastore) :
  let r := fold_left (Datastore.resyncAddStep b) items (a0, ds0) in
  (∀ name, Datastore.active r.1 name = true
           ↔ Datastore.active a0 name = true ∨ ready_name b items name)
  ∧ (∀ k, (∀ pod, pod ∈ items → Datastore.IsPodReady b pod = true →
                  Datastore.cp_NamespacedName pod ≠ k) →
          pods r.2 !! k = pods ds0 !! k)
  ∧ (∀ pod, pod ∈ items → Datastore.IsPodReady b pod = true →
            is_Some (pods r.2 !! Datastore.cp_NamespacedName pod))
  ∧ (∀ k, is_Some (pods ds0 !! k) → is_Some (pods r.2 !! k))
  ∧ (keeps_identity b → pods_keyed ds0 → pods_keyed r.2)
  ∧ pool r.2 = pool ds0 ∧ models r.2 = models ds0 ∧ sessions r.2 = sessions ds0.
Proof.
  revert a0 ds0. induction items as [|pod items IH]; intros a0 ds0; simpl.
  - split.
    { intros name. split; [by left|]. intros [?|(p & Hp & _)]; [done|].
      by apply elem_of_nil in Hp. }
    split; [done|]. split; [intros p Hp; by apply elem_of_nil in Hp|]. done.
  - set (k0 := Datastore.cp_NamespacedName pod).
    set (h0 := Datastore.UpdatePod b pod
                 (default (Datastore.NewPodMetrics b pod) (pods ds0 !! k0))).
    set (ds1 := {| pool := pool ds0; models := models ds0;
                   pods := <[k0 := h0]> (pods ds0); sessions := sessions ds0 |}).
    assert (Hstep : Datastore.resyncAddStep b (a0, ds0) pod
                    = if Datastore.IsPodReady b pod
                      then (<[Datastore.cp_Name pod := true]> a0, ds1)
                      else (a0, ds0)).
    { unfold Datastore.resyncAddStep. simpl.
      by rewrite PodUpdateOrAddIfNotExist_eq. }
    rewrite Hstep. clear Hstep.
    destruct (Datastore.IsPodReady b pod) eqn:Hready.
    + destruct (IH (<[Datastore.cp_Name pod := true]> a0) ds1)
        as (Hact & Hother & Hstored & Hmono & Hkeyed & Hp & Hm & Hs).
      split; [|split; [|split; [|split; [|split; [|by rewrite Hp, Hm, Hs]]]]].
      * intros name. rewrite Hact, active_insert. split.
        -- intros [[Hn|Ha]|(p & Hin & Hr & Hn)].
           ++ right. exists pod. split; [by left|done].
           ++ by left.
           ++ right. exists p. split; [by right|done].
        -- intros [Ha|(p & Hin & Hr & Hn)]; [left; by right|].
           apply elem_of_cons in Hin as [->|Hin]; [left; by left|].
           right. by exists p.
      * intros k Hk. rewrite Hother.
        -- simpl. rewrite lookup_insert_ne; [done|].
           apply (Hk pod); [by left|done].
        -- intros p Hin. apply Hk. by right.
      * intros p [->|Hin]%elem_of_cons Hr; [|by apply Hstored].
        apply Hmono. simpl. fold k0. rewrite lookup_insert_eq. by eexists.
      * intros k Hk. apply Hmono. simpl.
        destruct (decide (k0 = k)) as [<-|Hne].
        -- rewrite lookup_insert_eq. by eexists.
        -- by rewrite lookup_insert_ne.
      * intros Hb Hk0. apply Hkeyed; [done|].
        intros k h. simpl. destruct (decide (k0 = k)) as [<-|Hne].
        -- rewrite lookup_insert_eq. intros [= <-]. apply Hb.
        -- rewrite lookup_insert_ne by done. apply Hk0.
    + destruct (IH a0 ds0)
        as (Hact & Hother & Hstored & Hmono & Hkeyed & Hrest).
      split; [|split; [|split; [|done]]].
      * intros name. rewrite Hact. split.
        -- intros [Ha|(p & Hin & Hr & Hn)]; [by left|].
           right. exists p. split; [by right|done].
        -- intros [Ha|(p & Hin & Hr & Hn)]; [by left|].
           apply elem_of_cons in Hin as [->|Hin]; [congruence|].
           right. by exists p.
      * intros k Hk. apply Hother. intros p Hin. apply Hk. by right.
      * intros p [->|Hin]%elem_of_cons Hr; [congruence|by apply Hstored].
Qed.

Lemma PodDelete_present (k : NamespacedName) (h : PodMetricsHandle)
    (w : Datastore.world) :
  pods (Datastore.store w) !! k = Some h →
  Datastore.PodDelete k w
  = {| Datastore.store :=
         {| pool := pool (Datastore.store w); models := models (Datastore.store w);
            pods := delete k (pods (Datastore.store w));
            sessions := sessions (Datastore.store w) |};
       Datastore.stopRefreshLoopCalls :=
         (Datastore.stopRefreshLoopCalls w ++ [h])%list |}.
Proof.
  intros Hk. unfold Datastore.PodDelete, Datastore.LoadAndDelete. by rewrite Hk.
Qed.

(** The second loop, on entries that are stored under the names of
    their own pods: the entries of inactive names are deleted and their
    refresh loops stopped, in the order of the visit. *)
Lemma resync_delete_fold (a : gmap string bool)
    (l : list (NamespacedName * PodMetricsHandle)) (w : Datastore.world) :
  NoDup l.*1 →
  (∀ k h, (k, h) ∈ l →
     pod_NamespacedName (h_Pod h) = k ∧ pods (Datastore.store w) !! k = Some h) →
  let w' := fold_left (Datastore.resyncDeleteStep a) l w in
  Datastore.stopRefreshLoopCalls w'
  = (Datastore.stopRefreshLoopCalls w ++ (removed a l).*2)%list
  ∧ (∀ k, pods (Datastore.store w') !! k
          = if bool_decide (k ∈ (removed a l).*1) then None
            else pods (Datastore.store w) !! k)
  ∧ pool (Datastore.store w') = pool (Datastore.store w)
  ∧ models (Datastore.store w') = models (Datastore.store w)
  ∧ sessions (Datastore.store w') = sessions (Datastore.store w).
Proof.
  revert w. induction l as [|[k h] l IH]; intros w Hnd Hl; cbn [fold_left].
  - split; [by rewrite app_nil_r|]. split; [|done].
    intros k. rewrite bool_decide_eq_false_2; [done|]. apply not_elem_of_nil.
  - apply NoDup_cons in Hnd as [Hk Hnd].
    destruct (Hl k h) as [Hid Hst]; [by left|].
    assert (Hstep : Datastore.resyncDeleteStep a w (k, h)
                    = if Datastore.active a (Name k) then w
                      else Datastore.PodDelete k w).
    { unfold Datastore.resyncDeleteStep. cbn [snd]. by rewrite Hid. }
    assert (Hrem : removed a ((k, h) :: l)
                   = if Datastore.active a (Name k) then removed a l
                     else (k, h) :: removed a l).
    { unfold removed. cbn [List.filter fst].
      by destruct (Datastore.active a (Name k)). }
    rewrite Hstep, Hrem. clear Hstep Hrem.
    destruct (Datastore.active a (Name k)) eqn:Ha.
    + apply IH; [done|]. intros k' h' Hin. apply Hl. by right.
    + rewrite (PodDelete_present k h w Hst).
      destruct (IH {| Datastore.store :=
                        {| pool := pool (Datastore.store w);
                           models := models (Datastore.store w);
                           pods := delete k (pods (Datastore.store w));
                           sessions := sessions (Datastore.store w) |};
                      Datastore.stopRefreshLoopCalls :=
                        (Datastore.stopRefreshLoopCalls w ++ [h])%list |})
        as (Hstops & Hpods & Hrest); [done| |].
      { intros k' h' Hin. destruct (Hl k' h') as [Hid' Hst']; [by right|].
        split; [done|]. simpl. rewrite lookup_delete_ne; [done|].
        intros <-. apply Hk. apply list_elem_of_fmap. by exists (k, h'). }
      cbn [Datastore.store Datastore.stopRefreshLoopCalls pool models pods
           sessions] in Hstops, Hpods, Hrest.
      split; [by rewrite Hstops, <- app_assoc|]. split; [|done].
      change (((k, h) :: removed a l).*1) with (k :: (removed a l).*1).
      intros x. rewrite Hpods. destruct (decide (x = k)) as [->|Hne].
      * rewrite (bool_decide_eq_true_2 (k ∈ k :: (removed a l).*1)) by (by left).
        rewrite lookup_delete_eq. by destruct (bool_decide _).
      * rewrite lookup_delete_ne by done.
        destruct (decide (x ∈ (removed a l).*1)) as [Hin|Hnin].
        -- rewrite !bool_decide_eq_true_2; [done|by right|done].
        -- rewrite !bool_decide_eq_false_2; [done| |done].
           intros [?|?]%elem_of_cons; done.
Qed.

(** X10. [PodResyncAll], for handles whose update gives them the
    identity of the pod object and a pod map keyed by the identity of
    its handles. When listing fails nothing changes. When it succeeds:
    every ready listed pod is stored afterwards under its namespaced
    name; every stored pod has the name of a ready listed pod; a pod
    stored before is removed, and [StopRefreshLoop] invoked on its
    handle, exactly when no ready listed pod has its name (the
    namespace is not compared: a stored pod whose name is that of a
    ready pod of another namespace stays, with its handle); each removed
    key stops one refresh loop; pool, models and sessions are
    untouched and the pod map stays keyed. *)
Theorem PodResyncAll_spec (b : Datastore.Backend) (ctrlClient : Datastore.PodClient)
    (p : InferencePool) (w : Datastore.world) :
  keeps_identity b →
  pods_keyed (Datastore.store w) →
  let answer :=
    ctrlClient (Datastore.selectorFromInferencePoolSelector (pool_Selector p))
               (pool_Namespace p) in
  (∀ e, answer.2 = Some e →
     Datastore.PodResyncAll b ctrlClient (Some p) w = Returns w)
  ∧ (answer.2 = None →
     let items := answer.1 in
     ∃ w' stopped,
       Datastore.PodResyncAll b ctrlClient (Some p) w = Returns w'
       ∧ (∀ pod, pod ∈ items → Datastore.IsPodReady b pod = true →
            ∃ h, pods (Datastore.store w') !! Datastore.cp_NamespacedName pod
                 = Some h
                 ∧ pod_NamespacedName (h_Pod h) = Datastore.cp_NamespacedName pod)
       ∧ (∀ k h, pods (Datastore.store w') !! k = Some h →
            ready_name b items (Name k))
       ∧ (∀ k h, pods (Datastore.store w) !! k = Some h →
            ¬ ready_name b items (Name k) →
            pods (Datastore.store w') !! k = None ∧ (k, h) ∈ stopped)
       ∧ (∀ k h, pods (Datastore.store w) !! k = Some h →
            ready_name b items (Name k) →
            (∀ pod, pod ∈ items → Datastore.IsPodReady b pod = true →
                    Datastore.cp_NamespacedName pod ≠ k) →
            pods (Datastore.store w') !! k = Some h)
       ∧ Datastore.stopRefreshLoopCalls w'
         = (Datastore.stopRefreshLoopCalls w ++ stopped.*2)%list
       ∧ NoDup stopped.*1
       ∧ (∀ k h, (k, h) ∈ stopped
                 ↔ pods (Datastore.store w) !! k = Some h
                   ∧ ¬ ready_name b items (Name k))
       ∧ pods_keyed (Datastore.store w')
       ∧ pool (Datastore.store w') = pool (Datastore.store w)
       ∧ models (Datastore.store w') = models (Datastore.store w)
       ∧ sessions (Datastore.store w') = sessions (Datastore.store w)).
Proof.
  intros Hb Hkeyed answer. subst answer.
  unfold Datastore.PodResyncAll.
  destruct (ctrlClient _ (pool_Namespace p)) as [items err]. cbn [fst snd].
  split; [by intros e ->|]. intros ->.
  destruct (resync_add_fold b items ∅ (Datastore.store w))
    as (Hact & Hother & Hstored & Hmono & Hk1 & Hp1 & Hm1 & Hs1).
  destruct (fold_left (Datastore.resyncAddStep b) items (∅, Datastore.store w))
    as [a ds1]. cbn [fst snd] in *.
  specialize (Hk1 Hb Hkeyed).
  assert (Hactive : ∀ name, Datastore.active a name = true ↔ ready_name b items name).
  { intros name. rewrite Hact. unfold Datastore.active at 1.
    rewrite lookup_empty. simpl. split; [by intros [?|?]|by right]. }
  set (w1 := {| Datastore.store := ds1;
                Datastore.stopRefreshLoopCalls := Datastore.stopRefreshLoopCalls w |}).
  destruct (resync_delete_fold a (map_to_list (pods ds1)) w1)
    as (Hstops & Hpods & Hp2 & Hm2 & Hs2).
  { apply NoDup_fst_map_to_list. }
  { intros k h Hin. apply elem_of_map_to_list in Hin. split; [by apply Hk1|done]. }
  set (w' := fold_left (Datastore.resyncDeleteStep a) (map_to_list (pods ds1)) w1) in *.
  cbn [Datastore.store Datastore.stopRefreshLoopCalls w1] in Hstops, Hpods, Hp2, Hm2, Hs2.
  (* membership in the removed entries *)
  assert (Hrem : ∀ k h, (k, h) ∈ removed a (map_to_list (pods ds1))
                        ↔ pods ds1 !! k = Some h ∧ ¬ ready_name b items (Name k)).
  { intros k h. unfold removed. rewrite filter_elem_of, elem_of_map_to_list.
    cbn [fst]. rewrite negb_true_iff, <- not_true_iff_false, Hactive. done. }
  assert (Hremk : ∀ k, k ∈ (removed a (map_to_list (pods ds1))).*1
                       ↔ is_Some (pods ds1 !! k) ∧ ¬ ready_name b items (Name k)).
  { intros k. rewrite list_elem_of_fmap. split.
    - intros ([k' h] & -> & Hin). apply Hrem in Hin as [H1 H2]. by eauto.
    - intros [[h Hh] Hn]. exists (k, h). split; [done|]. by apply Hrem. }
  assert (Hlookup : ∀ k, pods (Datastore.store w') !! k
                         = if Datastore.active a (Name k)
                           then pods ds1 !! k else None).
  { intros k. rewrite Hpods. destruct (pods ds1 !! k) as [h|] eqn:Hk.
    - destruct (Datastore.active a (Name k)) eqn:Ha.
      + apply Hactive in Ha.
        rewrite bool_decide_eq_false_2; [done|].
        intros [_ Hn]%Hremk. done.
      + apply not_true_iff_false in Ha. rewrite Hactive in Ha.
        rewrite bool_decide_eq_true_2; [done|]. apply Hremk. by eauto.
    - rewrite bool_decide_eq_false_2.
      + by destruct (Datastore.active a (Name k)).
      + intros [[h Hh] _]%Hremk. by rewrite Hk in Hh. }
  assert (Hyes : ∀ name, ready_name b items name →
                         Datastore.active a name = true).
  { intros name. apply Hactive. }
  assert (Hno : ∀ name, ¬ ready_name b items name →
                        Datastore.active a name = false).
  { intros name Hn. apply not_true_iff_false. by rewrite Hactive. }
  (* an inactive name is the name of no ready pod, so its key is untouched *)
  assert (Huntouched : ∀ k, ¬ ready_name b items (Name k) →
                            pods ds1 !! k = pods (Datastore.store w) !! k).
  { intros k Hn. apply Hother. intros pod Hin Hr <-. apply Hn.
    exists pod. done. }
  exists w', (removed a (map_to_list (pods ds1))).
  split; [done|]. split; [|split; [|split; [|split; [|split; [|split; [|split;
    [|split; [|by rewrite Hp2, Hm2, Hs2, Hp1, Hm1, Hs1]]]]]]]].
  - intros pod Hin Hr. destruct (Hstored pod Hin Hr) as [h Hh].
    exists h. rewrite Hlookup, Hyes.
    + split; [done|]. by apply Hk1.
    + exists pod. done.
  - intros k h. rewrite Hlookup.
    destruct (Datastore.active a (Name k)) eqn:Ha; [|done].
    intros _. by apply Hactive.
  - intros k h Hk Hn. rewrite Hlookup, Hno by done.
    split; [done|]. apply Hrem. split; [|done]. by rewrite Huntouched.
  - intros k h Hk Hr Hne. rewrite Hlookup, Hyes by done.
    by rewrite Hother.
  - exact Hstops.
  - unfold removed.
    assert (Hsub : List.filter
                     (λ kv : NamespacedName * PodMetricsHandle,
                        negb (Datastore.active a (Name kv.1)))
                     (map_to_list (pods ds1))
                   `sublist_of` map_to_list (pods ds1)).
    { clear. induction (map_to_list (pods ds1)) as [|x l IH]; simpl.
      - constructor.
      - destruct (negb _); by constructor. }
    apply (fmap_sublist fst) in Hsub.
    exact (sublist_NoDup _ _ (NoDup_fst_map_to_list (pods ds1)) Hsub).
  - intros k h. rewrite Hrem. split.
    + intros [Hk Hn]. split; [|done]. by rewrite <- Huntouched.
    + intros [Hk Hn]. split; [|done]. by rewrite Huntouched.
  - intros k h. rewrite Hlookup.
    destruct (Datastore.active a (Name k)); [apply Hk1|done].
Qed.

(** Scenario: pod-a is stored and no longer listed, pod-b is listed and
    ready, pod-c is listed and not ready. *)
Lemma PodResyncAll_spec_witness :
  let ka := mkNamespacedName "default" "pod-a" in
  let ha := mkHandle (mkPod ka "10.0.0.1") (mkMetrics 0 0 [] 0) in
  let w := Datastore.mkWorld (mkDatastore None ∅ {[ ka := ha ]} ∅) [] in
  let p := mkInferencePool "pool" "default" ∅ in
  let c : Datastore.PodClient :=
    λ _ _, ([Datastore.mkCorePod "pod-b" "default" "10.0.0.2" true;
             Datastore.mkCorePod "pod-c" "default" "10.0.0.3" false], None) in
  ∃ w' stopped,
    Datastore.PodResyncAll exampleBackend c (Some p) w = Returns w'
    ∧ Datastore.stopRefreshLoopCalls w' = ([] ++ stopped.*2)%list
    ∧ pods (Datastore.store w') !! ka = None
    ∧ (ka, ha) ∈ stopped.
Proof.
  intros ka ha w p c.
  assert (Hb : keeps_identity exampleBackend) by (intros pod h; reflexivity).
  assert (Hk : pods_keyed (Datastore.store w)).
  { intros k h Hl. simpl in Hl. by apply lookup_singleton_Some in Hl as [<- <-]. }
  destruct (proj2 (PodResyncAll_spec exampleBackend c p w Hb Hk) eq_refl)
    as (w' & stopped & Hret & _ & _ & Hgone & _ & Hstops & _).
  exists w', stopped. split; [exact Hret|]. split; [exact Hstops|].
  apply (Hgone ka ha).
  - simpl. apply lookup_singleton_eq.
  - intros (pod & Hin & Hr & Hn). simpl in Hin.
    apply elem_of_cons in Hin as [->|Hin]; [discriminate Hn|].
    apply elem_of_cons in Hin as [->|Hin]; [discriminate Hr|].
    by apply elem_of_nil in Hin.
Defined.

(** ** The LRU picker, continued *)

(** X11. While some candidate has been used at most 100000 times,
    [LRUPicker.Pick] returns a candidate of minimal usage, the one the
    random picker draws among those of minimal usage; afterwards every
    candidate is in the usage map, the count of the winner has grown by
    exactly one (no wrap-around), no other count has changed, and every
    count is still a Go [int], so that the picker can be called again. *)
Theorem LRUPicker_Pick_below_sentinel (r : nat) (cache0 : gmap NamespacedName Z)
    (scoredPods : list ScoredPod) :
  map_Forall (λ _ c, is_int c) cache0 →
  (∃ p, p ∈ scoredPods ∧ usage cache0 (sp_NamespacedName p) ≤ 100000) →
  ∃ best cache',
    LRUPicker.Pick r cache0 scoredPods = Returns (mkResult best, cache')
    ∧ best ∈ scoredPods
    ∧ (∀ q, q ∈ scoredPods →
         usage cache0 (sp_NamespacedName best) ≤ usage cache0 (sp_NamespacedName q))
    ∧ (let least :=
         List.filter (λ q, usage cache0 (sp_NamespacedName q)
                           =? usage cache0 (sp_NamespacedName best)) scoredPods in
       least !! (r `mod` length least)%nat = Some best)
    ∧ usage cache' (sp_NamespacedName best)
      = usage cache0 (sp_NamespacedName best) + 1
    ∧ (∀ k, k ≠ sp_NamespacedName best → usage cache' k = usage cache0 k)
    ∧ (∀ q, q ∈ scoredPods → is_Some (cache' !! sp_NamespacedName q))
    ∧ map_Forall (λ _ c, is_int c) cache'.
Proof.
  intros Hint Hex.
  assert (Hbound : ∀ q, q ∈ scoredPods →
            (∀ q', q' ∈ scoredPods →
               usage cache0 (sp_NamespacedName q) ≤ usage cache0 (sp_NamespacedName q')) →
            usage cache0 (sp_NamespacedName q) ≤ 100000).
  { intros q _ Hmin. destruct Hex as (p0 & Hp0 & Hp0u).
    specialize (Hmin p0 Hp0). lia. }
  destruct (LRUPicker_Pick_least_used r cache0 scoredPods Hint Hex)
    as (best & cache' & Hret & Hin & Hmin & Hdraw & Hinc & Hother & Hall).
  exists best, cache'.
  repeat (split; [assumption|]).
  intros k v Hk.
  assert (Hv : usage cache' k = v) by (unfold usage; by rewrite Hk).
  pose proof (usage_is_int cache0 k Hint) as Hk0.
  destruct (decide (k = sp_NamespacedName best)) as [->|Hne].
  - rewrite Hinc in Hv. specialize (Hbound best Hin Hmin).
    unfold is_int, int_min, int_max in *. lia.
  - rewrite (Hother k Hne) in Hv. by subst v.
Qed.

Lemma LRUPicker_Pick_below_sentinel_witness :
  let a := mkScoredPod (mkPod (mkNamespacedName "default" "pod-a") "10.0.0.1:8000") 0 in
  let b := mkScoredPod (mkPod (mkNamespacedName "default" "pod-b") "10.0.0.2:8000") 0 in
  let cache : gmap NamespacedName Z := {[ sp_NamespacedName a := 3 ]} in
  ∃ best cache',
    LRUPicker.Pick 0 cache [a; b] = Returns (mkResult best, cache')
    ∧ best ∈ [a; b]
    ∧ usage cache' (sp_NamespacedName best)
      = usage cache (sp_NamespacedName best) + 1
    ∧ map_Forall (λ _ c, is_int c) cache'.
Proof.
  intros a b cache.
  destruct (LRUPicker_Pick_below_sentinel 0 cache [a; b])
    as (best & cache' & Hret & Hin & _ & _ & Hinc & _ & _ & Hint).
  - intros k c Hl. apply lookup_singleton_Some in Hl as [_ <-].
    unfold is_int, int_min, int_max. lia.
  - exists a. split; [by left|]. vm_compute. discriminate.
  - by exists best, cache'.
Defined.

Lemma lru_best_nonempty (cache0 : gmap NamespacedName Z)
    (scoredPods : list ScoredPod) :
  (∃ p, p ∈ scoredPods ∧ usage cache0 (sp_NamespacedName p) ≤ 100000) →
  LRUPicker.bestPods
    (fold_left LRUPicker.step scoredPods
       {| LRUPicker.podsCache := cache0; LRUPicker.minUsages := 100000;
          LRUPicker.bestPods := [] |}) ≠ [].
Proof.
  intros (p0 & Hp0 & Hp0u).
  destruct (lru_loop_inv cache0 scoredPods) as (_ & _ & Hle & Hmin & Hatt & Hbest).
  set (st := fold_left LRUPicker.step scoredPods _) in *.
  assert (Hex : ∃ q, q ∈ scoredPods
            ∧ usage cache0 (sp_NamespacedName q) = LRUPicker.minUsages st).
  { destruct Hatt as [Hm|Hex]; [|done].
    exists p0. split; [done|]. specialize (Hmin p0 Hp0). lia. }
  destruct Hex as (q & Hq & Hqu). rewrite Hbest. intros Hnil.
  assert (Hqin : q ∈ List.filter
             (λ p, usage cache0 (sp_NamespacedName p) =? LRUPicker.minUsages st)
             scoredPods).
  { apply filter_elem_of. split; [done|]. by apply Z.eqb_eq. }
  rewrite Hnil in Hqin. by apply elem_of_nil in Hqin.
Qed.

(** X12. [LRUPicker.Pick] panics exactly when every candidate has been
    used more than 100000 times (an empty candidate list included), for
    every usage map and every draw of the generator; it returns exactly
    when some candidate has been used at most 100000 times. *)
Theorem LRUPicker_Pick_panics_iff (r : nat) (cache0 : gmap NamespacedName Z)
    (scoredPods : list ScoredPod) :
  (LRUPicker.Pick r cache0 scoredPods = Panics IntnNonPositive
   ↔ ∀ q, q ∈ scoredPods → 100000 < usage cache0 (sp_NamespacedName q))
  ∧ ((∃ out, LRUPicker.Pick r cache0 scoredPods = Returns out)
     ↔ ∃ q, q ∈ scoredPods ∧ usage cache0 (sp_NamespacedName q) ≤ 100000)
  ∧ ∀ p, LRUPicker.Pick r cache0 scoredPods = Panics p → p = IntnNonPositive.
Proof.
  assert (Hreturns :
    (∃ q, q ∈ scoredPods ∧ usage cache0 (sp_NamespacedName q) ≤ 100000) →
    ∃ out, LRUPicker.Pick r cache0 scoredPods = Returns out).
  { intros Hex. pose proof (lru_best_nonempty cache0 scoredPods Hex) as Hne.
    unfold LRUPicker.Pick.
    destruct (LRUPicker.bestPods _) as [|b [|b2 bs]] eqn:Hb; [done|by eexists|].
    destruct (RandomPicker_Pick_nonempty r (b :: b2 :: bs)) as (best & -> & _);
      [done|].
    by eexists. }
  assert (Hpanics :
    (∀ q, q ∈ scoredPods → 100000 < usage cache0 (sp_NamespacedName q)) →
    LRUPicker.Pick r cache0 scoredPods = Panics IntnNonPositive).
  { intros Hall.
    destruct (lru_loop_inv cache0 scoredPods) as (_ & _ & Hle & _ & _ & Hbest).
    unfold LRUPicker.Pick. rewrite Hbest.
    rewrite filter_none; [done|].
    intros x Hx. apply Z.eqb_neq. specialize (Hall x Hx). lia. }
  assert (Hdec : (∃ q, q ∈ scoredPods ∧ usage cache0 (sp_NamespacedName q) ≤ 100000)
                 ∨ ∀ q, q ∈ scoredPods → 100000 < usage cache0 (sp_NamespacedName q)).
  { clear. induction scoredPods as [|x l IH].
    - right. intros q Hq. by apply elem_of_nil in Hq.
    - destruct (decide (usage cache0 (sp_NamespacedName x) ≤ 100000)) as [Hx|Hx].
      + left. exists x. split; [by left|done].
      + destruct IH as [(q & Hq & Hqu)|Hall].
        * left. exists q. split; [by right|done].
        * right. intros q [->|Hq]%elem_of_cons; [lia|by apply Hall]. }
  split; [|split].
  - split; [|exact Hpanics]. intros Hp.
    destruct Hdec as [Hex|Hall]; [|done].
    destruct (Hreturns Hex) as [out Hout]. congruence.
  - split; [|exact Hreturns]. intros [out Hout].
    destruct Hdec as [Hex|Hall]; [done|].
    rewrite (Hpanics Hall) in Hout. done.
  - intros p Hp. destruct Hdec as [Hex|Hall].
    + destruct (Hreturns Hex) as [out Hout]. congruence.
    + rewrite (Hpanics Hall) in Hp. by injection Hp as <-.
Qed.

Lemma filter_length_drop_one (pods : list ScoredPod) (best : ScoredPod)
    (f g : ScoredPod → bool) :
  NoDup (map sp_NamespacedName pods) →
  best ∈ pods → f best = true → g best = false →
  (∀ p, p ∈ pods → sp_NamespacedName p ≠ sp_NamespacedName best → g p = f p) →
  length (List.filter f pods) = S (length (List.filter g pods)).
Proof.
  induction pods as [|x l IH]; intros Hnd Hin Hf Hg Hsame.
  - by apply elem_of_nil in Hin.
  - simpl in Hnd. apply NoDup_cons in Hnd as [Hx Hnd].
    assert (Hkeys : ∀ p, p ∈ l → sp_NamespacedName p ≠ sp_NamespacedName x).
    { intros p Hp Heq. apply Hx. rewrite <- Heq.
      change (map sp_NamespacedName l) with (sp_NamespacedName <$> l).
      apply list_elem_of_fmap. by exists p. }
    apply elem_of_cons in Hin as [->|Hin].
    + simpl. rewrite Hf, Hg. simpl. f_equal. f_equal.
      apply filter_ext_in. intros p Hp%list_elem_of_In. symmetry.
      apply Hsame; [by right|]. by apply Hkeys.
    + simpl. rewrite (Hsame x) by (by left || (intros Heq; by apply (Hkeys best))).
      destruct (f x); simpl; f_equal; apply IH; try done.
      all: intros p Hp; apply Hsame; by right.
Qed.

Lemma LRU_picks_gen (c : Z) (pods : list ScoredPod) :
  NoDup (map sp_NamespacedName pods) → c < 100000 →
  ∀ (rs : list nat) (cache : gmap NamespacedName Z),
    map_Forall (λ _ v, is_int v) cache →
    (∀ p, p ∈ pods → usage cache (sp_NamespacedName p) = c
                     ∨ usage cache (sp_NamespacedName p) = c + 1) →
    (length rs
     ≤ length (List.filter (λ p, (usage cache (sp_NamespacedName p) =? c)%Z)
                 pods))%nat →
    ∃ chosen cache',
      LRU_picks rs cache pods = Returns (chosen, cache')
      ∧ length chosen = length rs
      ∧ (∀ q, q ∈ chosen → q ∈ pods ∧ usage cache (sp_NamespacedName q) = c)
      ∧ NoDup (map sp_NamespacedName chosen)
      ∧ ∀ p, p ∈ pods →
          usage cache' (sp_NamespacedName p)
          = if bool_decide (sp_NamespacedName p ∈ map sp_NamespacedName chosen)
            then c + 1 else usage cache (sp_NamespacedName p).
Proof.
  intros Hnd Hc. induction rs as [|r rest IH]; intros cache Hint Hvals Hlen.
  - exists [], cache. split; [done|]. split; [done|].
    split; [intros q Hq; by apply elem_of_nil in Hq|]. split; [constructor|].
    intros p Hp. rewrite bool_decide_eq_false_2; [done|]. apply not_elem_of_nil.
  - (* some candidate has not been chosen yet *)
    assert (Hex : ∃ p0, p0 ∈ pods ∧ usage cache (sp_NamespacedName p0) = c).
    { destruct (List.filter _ pods) as [|p0 l] eqn:Hf; [simpl in Hlen; lia|].
      assert (Hp0 : p0 ∈ List.filter
                (λ p, usage cache (sp_NamespacedName p) =? c) pods)
        by (rewrite Hf; by left).
      apply filter_elem_of in Hp0 as [Hp0 Hu]. exists p0.
      split; [done|]. by apply Z.eqb_eq. }
    destruct Hex as (p0 & Hp0 & Hp0u).
    destruct (LRUPicker_Pick_least_used r cache pods Hint)
      as (best & cache1 & Hpick & Hbest & Hleast & _ & Hinc & Hframe & _).
    { exists p0. split; [done|]. lia. }
    assert (Hbu : usage cache (sp_NamespacedName best) = c).
    { specialize (Hleast p0 Hp0). destruct (Hvals best Hbest); lia. }
    assert (Hcint : is_int c).
    { rewrite <- Hbu. by apply usage_is_int. }
    assert (Hu1 : ∀ k, usage cache1 k
                       = if decide (k = sp_NamespacedName best) then c + 1
                         else usage cache k).
    { intros k. destruct (decide _) as [->|Hne]; [lia|by apply Hframe]. }
    destruct (IH cache1) as (chosen & cache' & Hrun & Hl & Hch & Hndc & Hfin).
    + intros k v Hk.
      assert (Hv : v = usage cache1 k) by (unfold usage; by rewrite Hk).
      rewrite Hv, Hu1. destruct (decide _).
      * unfold is_int, int_min, int_max in *. lia.
      * by apply usage_is_int.
    + intros p Hp. rewrite Hu1. destruct (decide _); [by right|by apply Hvals].
    + rewrite (filter_length_drop_one pods best
                 (λ p, usage cache (sp_NamespacedName p) =? c)
                 (λ p, usage cache1 (sp_NamespacedName p) =? c)) in Hlen.
      * simpl in Hlen. lia.
      * done.
      * done.
      * by apply Z.eqb_eq.
      * apply Z.eqb_neq. lia.
      * intros p Hp Hne. by rewrite Hframe.
    + assert (Hnot : ∀ q, q ∈ chosen →
                          sp_NamespacedName q ≠ sp_NamespacedName best).
      { intros q Hq Heq. destruct (Hch q Hq) as [_ Hqu].
        rewrite Heq in Hqu. lia. }
      exists (best :: chosen), cache'. split; [|split; [|split; [|split]]].
      * cbn [LRU_picks]. rewrite Hpick, obind_Returns. cbn [fst snd].
        rewrite Hrun, obind_Returns. done.
      * simpl. by rewrite Hl.
      * intros q [->|Hq]%elem_of_cons; [done|].
        destruct (Hch q Hq) as [Hqin Hqu]. split; [done|].
        rewrite <- Hqu. symmetry. apply Hframe. by apply Hnot.
      * simpl. apply NoDup_cons. split; [|done].
        change (map sp_NamespacedName chosen) with (sp_NamespacedName <$> chosen).
        intros (q & Heq & Hq)%list_elem_of_fmap. by apply (Hnot q).
      * intros p Hp. rewrite (Hfin p Hp). simpl.
        destruct (decide (sp_NamespacedName p = sp_NamespacedName best)) as [Heq|Hne].
        -- rewrite (bool_decide_eq_true_2 (_ ∈ _ :: _)) by (rewrite Heq; by left).
           rewrite Heq. destruct (bool_decide _); [done|]. lia.
        -- rewrite Hframe by done.
           destruct (decide (sp_NamespacedName p ∈ map sp_NamespacedName chosen)).
           ++ rewrite !bool_decide_eq_true_2; [done|by right|done].
           ++ rewrite !bool_decide_eq_false_2; [done| |done].
              intros [?|?]%elem_of_cons; done.
Qed.

(** X13. Round robin: on candidates of distinct namespaced names that
    all have the same count, below 100000, as many successive picks as
    there are candidates choose every candidate exactly once, whatever
    the generator draws, and leave every count one higher. *)
Theorem LRUPicker_round_robin (rs : list nat) (c : Z)
    (cache : gmap NamespacedName Z) (scoredPods : list ScoredPod) :
  NoDup (map sp_NamespacedName scoredPods) →
  map_Forall (λ _ v, is_int v) cache →
  (∀ p, p ∈ scoredPods → usage cache (sp_NamespacedName p) = c) →
  c < 100000 →
  length rs = length scoredPods →
  ∃ chosen cache',
    LRU_picks rs cache scoredPods = Returns (chosen, cache')
    ∧ chosen ≡ₚ scoredPods
    ∧ ∀ p, p ∈ scoredPods → usage cache' (sp_NamespacedName p) = c + 1.
Proof.
  intros Hnd Hint Hall Hc Hlen.
  destruct (LRU_picks_gen c scoredPods Hnd Hc rs cache Hint)
    as (chosen & cache' & Hrun & Hl & Hch & Hndc & Hfin).
  { intros p Hp. left. by apply Hall. }
  { rewrite forallb_filter_id; [lia|].
    apply forallb_forall. intros p Hp%list_elem_of_In.
    apply Z.eqb_eq. by apply Hall. }
  assert (Hperm : chosen ≡ₚ scoredPods).
  { apply submseteq_length_Permutation; [|lia].
    apply NoDup_submseteq.
    - by apply (NoDup_fmap_1 sp_NamespacedName).
    - intros q Hq. by apply Hch. }
  exists chosen, cache'. split; [done|]. split; [done|].
  intros p Hp. rewrite (Hfin p Hp). rewrite bool_decide_eq_true_2; [done|].
  change (map sp_NamespacedName chosen) with (sp_NamespacedName <$> chosen).
  apply list_elem_of_fmap. exists p. split; [done|]. by rewrite Hperm.
Qed.

Lemma LRUPicker_round_robin_witness :
  let a := mkScoredPod (mkPod (mkNamespacedName "default" "pod-a") "10.0.0.1:8000") 0 in
  let b := mkScoredPod (mkPod (mkNamespacedName "default" "pod-b") "10.0.0.2:8000") 0 in
  let c := mkScoredPod (mkPod (mkNamespacedName "default" "pod-c") "10.0.0.3:8000") 0 in
  ∃ chosen cache',
    LRU_picks [5; 1; 8]%nat ∅ [a; b; c] = Returns (chosen, cache')
    ∧ chosen ≡ₚ [a; b; c]
    ∧ ∀ p, p ∈ [a; b; c] → usage cache' (sp_NamespacedName p) = 0 + 1.
Proof.
  intros a b c.
  apply (LRUPicker_round_robin [5; 1; 8]%nat 0 ∅ [a; b; c]).
  - simpl.
    repeat (apply NoDup_cons; split;
            [ let H := fresh in
              intros H;
              repeat (apply elem_of_cons in H as [H|H]; [discriminate H|]);
              by apply elem_of_nil in H |]).
    constructor.
  - apply map_Forall_empty.
  - intros p _. unfold usage. by rewrite lookup_empty.
  - lia.
  - reflexivity.
Defined.

(** ** The KV-cache-aware scorer, continued *)

Lemma keys_fold_last (address : string) (pods : list (option PodMetrics))
    (acc : list string * gmap string PodMetrics) (found : option PodMetrics) :
  acc.2 !! address = found →
  (fold_left KVCacheAwareScorer.keysStep pods acc).2 !! address
  = fold_left
      (λ (found : option PodMetrics) (o : option PodMetrics),
         match o with
         | Some p =>
             if String.eqb (Address (pm_Pod p)) address then Some p else found
         | None => found
         end) pods found.
Proof.
  revert acc found. induction pods as [|[p|] pods IH]; intros acc found Hacc;
    cbn [fold_left]; [done| |by apply IH].
  apply IH. unfold KVCacheAwareScorer.keysStep. cbn [snd].
  destruct (String.eqb_spec (Address (pm_Pod p)) address) as [->|Hne].
  - apply lookup_insert_eq.
  - by rewrite lookup_insert_ne.
Qed.

Lemma scoreLoop_omap (m : gmap string PodMetrics) (scores : list IndexerPodScore)
    (acc : list PodScore) :
  fold_left (KVCacheAwareScorer.scoreStep m) scores acc
  = (acc ++ omap (λ s, (λ p, {| Score := ips_Score s; ps_Pod := Some p |})
                         <$> m !! ips_Name s) scores)%list.
Proof.
  set (f := λ s : IndexerPodScore,
              (λ p, {| Score := ips_Score s; ps_Pod := Some p |})
                <$> m !! ips_Name s).
  revert acc. induction scores as [|s scores IH]; intros acc.
  - simpl. by rewrite app_nil_r.
  - cbn [fold_left]. rewrite IH.
    assert (Hstep : KVCacheAwareScorer.scoreStep m acc s
                    = (acc ++ match f s with Some y => [y] | None => [] end)%list).
    { unfold KVCacheAwareScorer.scoreStep, f.
      destruct (m !! ips_Name s); simpl; [done|by rewrite app_nil_r]. }
    assert (Hcons : omap f (s :: scores)
                    = match f s with
                      | Some y => y :: omap f scores
                      | None => omap f scores
                      end) by reflexivity.
    rewrite Hstep, Hcons. destruct (f s); simpl.
    + by rewrite <- app_assoc.
    + by rewrite app_nil_r.
Qed.

Lemma omap_ext_pointwise {A B : Type} (f g : A → option B) (l : list A) :
  (∀ x, f x = g x) → omap f l = omap g l.
Proof.
  intros Hfg. induction l as [|x l IH]; [done|].
  change (omap f (x :: l))
    with (match f x with Some y => y :: omap f l | None => omap f l end).
  change (omap g (x :: l))
    with (match g x with Some y => y :: omap g l | None => omap g l end).
  by rewrite Hfg, IH.
Qed.

Lemma omap_length_le {A B : Type} (f : A → option B) (l : list A) :
  (length (omap f l) ≤ length l)%nat.
Proof.
  induction l as [|x l IH]; [done|].
  change (omap f (x :: l))
    with (match f x with Some y => y :: omap f l | None => omap f l end).
  destruct (f x); simpl; lia.
Qed.

(** X14. The answer of the scorer when the indexer succeeds, for a
    request that is there and pods of which one at least is not nil: the
    scores of the indexer in the order of its answer, each attributed to
    the last non-nil input pod whose address is the name of the score;
    scores of other names are dropped, so the result is never longer
    than the answer of the indexer. *)
Theorem KVCacheAwareScorer_ScoreTargets_success (idx : Indexer) (ctx : Context)
    (req : LLMRequest) (pods : list (option PodMetrics))
    (scores : list IndexerPodScore) :
  Req ctx = Some req →
  omap (fmap (λ p, Address (pm_Pod p))) pods ≠ [] →
  idx (Prompt req) (Model req) (omap (fmap (λ p, Address (pm_Pod p))) pods)
  = (scores, None) →
  KVCacheAwareScorer.ScoreTargets idx ctx pods
  = (omap (λ s, (λ p, {| Score := ips_Score s; ps_Pod := Some p |})
                  <$> lastWithAddress (ips_Name s) pods) scores, None)
  ∧ (length (KVCacheAwareScorer.ScoreTargets idx ctx pods).1 ≤ length scores)%nat.
Proof.
  intros Hreq Hids Hidx.
  destruct (podMetricsToKeysAndMap_spec pods) as [Hk _].
  assert (Heq : KVCacheAwareScorer.ScoreTargets idx ctx pods
    = (omap (λ s, (λ p, {| Score := ips_Score s; ps_Pod := Some p |})
                    <$> lastWithAddress (ips_Name s) pods) scores, None)).
  { unfold KVCacheAwareScorer.ScoreTargets. rewrite Hreq.
    assert (Hm : ∀ a, (KVCacheAwareScorer.podMetricsToKeysAndMap pods).2 !! a
                      = lastWithAddress a pods).
    { intros a. unfold KVCacheAwareScorer.podMetricsToKeysAndMap, lastWithAddress.
      apply keys_fold_last. apply lookup_empty. }
    destruct (KVCacheAwareScorer.podMetricsToKeysAndMap pods) as [ids m].
    cbn [fst snd] in Hk, Hm. subst ids.
    destruct (omap (fmap (λ p, Address (pm_Pod p))) pods) as [|i ids] eqn:Hi;
      [done|].
    cbn [length Nat.eqb]. rewrite Hidx.
    unfold KVCacheAwareScorer.scoreLoop. rewrite scoreLoop_omap. cbn [app].
    f_equal. apply omap_ext_pointwise. intros s. by rewrite Hm. }
  split; [exact Heq|]. rewrite Heq. cbn [fst]. apply omap_length_le.
Qed.

Lemma KVCacheAwareScorer_ScoreTargets_success_witness :
  let a := mkPodMetrics (mkPod (mkNamespacedName "default" "pod-a") "10.0.0.1:8000")
                        (mkMetrics 0 0 [] 4) in
  let b := mkPodMetrics (mkPod (mkNamespacedName "default" "pod-b") "10.0.0.1:8000")
                        (mkMetrics 3 0 [] 4) in
  let req := mkLLMRequest "m" "hello" "" true in
  let idx : Indexer :=
    λ _ _ _, ([mkIndexerPodScore "10.0.0.9:8000" 0.25;
               mkIndexerPodScore "10.0.0.1:8000" 0.5], None) in
  KVCacheAwareScorer.ScoreTargets idx (NewContext (Some req) [a; b])
    [Some a; None; Some b]
  = ([{| Score := 0.5; ps_Pod := Some b |}], None).
Proof.
  intros a b req idx.
  refine (proj1 (KVCacheAwareScorer_ScoreTargets_success idx
                   (NewContext (Some req) [a; b]) req [Some a; None; Some b]
                   _ eq_refl _ eq_refl)).
  simpl. discriminate.
Defined.

Lemma identifiers_nil_iff (pods : list (option PodMetrics)) :
  omap (fmap (λ p, Address (pm_Pod p))) pods = [] ↔ Forall (λ o, o = None) pods.
Proof.
  induction pods as [|[p|] pods IH].
  - split; [constructor|done].
  - split; [discriminate|]. intros H. by apply Forall_cons in H as [? _].
  - change (omap (fmap (λ p, Address (pm_Pod p))) (None :: pods))
      with (omap (fmap (λ p, Address (pm_Pod p))) pods).
    rewrite IH. split.
    + intros H. by constructor.
    + intros H. by apply Forall_cons in H as [_ ?].
Qed.

(** X15. When the scorer leaves the indexer alone. Without a request it
    fails with a plain error, whatever the pods and the indexer. With a
    request it returns no scores and no error for every indexer, a
    failing one included, exactly when every pod of the input is nil (an
    empty input included). And its result depends on the indexer only
    through the answer to the one query it sends: the prompt and the
    model of the request and the addresses of the pods that are not nil,
    in order. *)
Theorem KVCacheAwareScorer_indexer_consulted (ctx : Context)
    (pods : list (option PodMetrics)) :
  (Req ctx = None →
   ∀ idx, KVCacheAwareScorer.ScoreTargets idx ctx pods
          = ([], Some (errors_New "request (ctx.Req) is nil, cannot score pods")))
  ∧ (∀ req, Req ctx = Some req →
       ((∀ idx, KVCacheAwareScorer.ScoreTargets idx ctx pods = ([], None))
        ↔ Forall (λ o, o = None) pods)
       ∧ ∀ idx1 idx2 : Indexer,
           idx1 (Prompt req) (Model req)
                (omap (fmap (λ p, Address (pm_Pod p))) pods)
           = idx2 (Prompt req) (Model req)
                  (omap (fmap (λ p, Address (pm_Pod p))) pods) →
           KVCacheAwareScorer.ScoreTargets idx1 ctx pods
           = KVCacheAwareScorer.ScoreTargets idx2 ctx pods).
Proof.
  split.
  { intros Hreq idx. unfold KVCacheAwareScorer.ScoreTargets. by rewrite Hreq. }
  intros req Hreq.
  destruct (podMetricsToKeysAndMap_spec pods) as [Hk _].
  assert (Hunf : ∀ idx, KVCacheAwareScorer.ScoreTargets idx ctx pods
    = if (length (omap (fmap (λ p, Address (pm_Pod p))) pods) =? 0)%nat
      then ([], None)
      else
        let '(scores, err) :=
          idx (Prompt req) (Model req)
              (omap (fmap (λ p, Address (pm_Pod p))) pods) in
        match err with
        | Some e => ([], Some (fmt_Errorf_w "failed to get pod scores: %w" (Some e)))
        | None =>
            (KVCacheAwareScorer.scoreLoop
               (KVCacheAwareScorer.podMetricsToKeysAndMap pods).2 scores, None)
        end).
  { intros idx. unfold KVCacheAwareScorer.ScoreTargets. rewrite Hreq.
    destruct (KVCacheAwareScorer.podMetricsToKeysAndMap pods) as [ids m].
    cbn [fst snd] in Hk |- *. by subst ids. }
  split.
  - rewrite <- identifiers_nil_iff. split.
    + intros Hall.
      specialize (Hall (λ _ _ _, ([], Some (errors_New "unavailable")))).
      rewrite Hunf in Hall.
      destruct (omap (fmap (λ p, Address (pm_Pod p))) pods) as [|i ids];
        [done|]. cbn in Hall. discriminate Hall.
    + intros Hnil idx. rewrite Hunf, Hnil. reflexivity.
  - intros idx1 idx2 Heq. rewrite !Hunf, Heq. reflexivity.
Qed.

Lemma KVCacheAwareScorer_indexer_consulted_witness :
  let req := mkLLMRequest "m" "hello" "" true in
  let failing : Indexer := λ _ _ _, ([], Some (errors_New "connection refused")) in
  KVCacheAwareScorer.ScoreTargets failing (NewContext (Some req) []) [None; None]
  = ([], None).
Proof.
  intros req failing.
  refine (proj2 (proj1 (proj2 (KVCacheAwareScorer_indexer_consulted
                                 (NewContext (Some req) []) [None; None])
                          req eq_refl)) _ failing).
  repeat constructor.
Defined.

(** ** The session-affinity scorer, continued *)

Lemma float_one_ne_zero : 1%float ≠ 0%float.
Proof.
  intros H.
  assert (Heq : PrimFloat.eqb 1 0 = PrimFloat.eqb 0 0) by (by rewrite H).
  vm_compute in Heq. discriminate Heq.
Qed.

(** X16. Session affinity outlives the pod. The scorer reads the session
    table only, and neither [Clear] nor [PodDelete] touches that table:
    the scorer answers after them as before. So once a session has been
    given a pod, a candidate of that namespaced name still scores 1.0
    after the pod has been deleted and the datastore cleared, and every
    candidate of another rendered name scores 0. *)
Theorem SessionAffinityScorer_outlives_pod (ds : datastore) (ctx : Context)
    (targets : list PodMetrics) (calls : list PodMetricsHandle) :
  SessionAffinityScorer.ScoreTargets (Datastore.Clear ds) ctx targets
  = SessionAffinityScorer.ScoreTargets ds ctx targets
  ∧ (∀ k,
       SessionAffinityScorer.ScoreTargets
         (Datastore.store
            (Datastore.PodDelete k
               {| Datastore.store := ds; Datastore.stopRefreshLoopCalls := calls |}))
         ctx targets
       = SessionAffinityScorer.ScoreTargets ds ctx targets)
  ∧ (∀ (now : Z) (pod : Pod) (req : LLMRequest),
       Req ctx = Some req → SessionID req ≠ "" →
       let ds1 := Datastore.SetPodForSession now (SessionID req) (Some pod) ds in
       let ds2 :=
         Datastore.Clear
           (Datastore.store
              (Datastore.PodDelete (pod_NamespacedName pod)
                 {| Datastore.store := ds1;
                    Datastore.stopRefreshLoopCalls := calls |})) in
       pods ds2 = ∅
       ∧ SessionAffinityScorer.ScoreTargets ds2 ctx targets
         = Returns
             (map (affinityEntry
                     (NamespacedName_String (pod_NamespacedName pod))) targets,
              None)).
Proof.
  assert (Hsess : ∀ ds1 ds2, sessions ds1 = sessions ds2 →
            SessionAffinityScorer.ScoreTargets ds1 ctx targets
            = SessionAffinityScorer.ScoreTargets ds2 ctx targets).
  { intros ds1 ds2 Hs.
    unfold SessionAffinityScorer.ScoreTargets, Datastore.GetPodForSession.
    by rewrite Hs. }
  assert (Hdel : ∀ k d,
            sessions (Datastore.store
                        (Datastore.PodDelete k
                           {| Datastore.store := d;
                              Datastore.stopRefreshLoopCalls := calls |}))
            = sessions d).
  { intros k d. unfold Datastore.PodDelete, Datastore.LoadAndDelete.
    cbn [Datastore.store]. by destruct (pods d !! k). }
  split; [by apply Hsess|]. split; [intros k; by apply Hsess, Hdel|].
  intros now pod req Hreq Hsid ds1 ds2. split; [done|].
  rewrite (Hsess ds2 ds1) by (subst ds2; cbn [Datastore.Clear sessions]; apply Hdel).
  rewrite (SessionAffinity_ScoreTargets_eq ds1 ctx req targets Hreq).
  apply String.eqb_neq in Hsid. rewrite Hsid. cbn [negb].
  subst ds1. unfold Datastore.GetPodForSession, Datastore.SetPodForSession.
  cbn [sessions]. by rewrite lookup_insert_eq.
Qed.

Lemma SessionAffinityScorer_outlives_pod_witness :
  let a := mkPodMetrics (mkPod (mkNamespacedName "default" "pod-a") "10.0.0.1:8000")
                        (mkMetrics 0 0 [] 4) in
  let b := mkPodMetrics (mkPod (mkNamespacedName "default" "pod-b") "10.0.0.2:8000")
                        (mkMetrics 3 0 [] 4) in
  let req := mkLLMRequest "m" "hello" "s1" true in
  let ds1 := Datastore.SetPodForSession 7 "s1" (Some (pm_Pod a))
               Datastore.NewDatastore in
  let ds2 :=
    Datastore.Clear
      (Datastore.store
         (Datastore.PodDelete (pm_NamespacedName a)
            {| Datastore.store := ds1; Datastore.stopRefreshLoopCalls := [] |})) in
  SessionAffinityScorer.ScoreTargets ds2 (NewContext (Some req) [a; b]) [a; b]
  = Returns ([{| Score := 1; ps_Pod := Some a |};
              {| Score := 0; ps_Pod := Some b |}], None).
Proof.
  intros a b req ds1 ds2.
  refine (proj2 (proj2 (proj2 (SessionAffinityScorer_outlives_pod
                                 Datastore.NewDatastore
                                 (NewContext (Some req) [a; b]) [a; b] []))
                   7 (pm_Pod a) req eq_refl _)).
  discriminate.
Defined.

(** X17. Among candidates of distinct namespaced names whose namespaces
    hold no separator, the session-affinity scorer gives the score 1.0
    to at most one, whatever the session table holds; and to none when
    the request has no session id. *)
Theorem SessionAffinityScorer_at_most_one (ds : datastore) (ctx : Context)
    (req : LLMRequest) (targets : list PodMetrics) :
  Req ctx = Some req →
  NoDup (pm_NamespacedName <$> targets) →
  (∀ p, p ∈ targets → has_separator (Namespace (pm_NamespacedName p)) = false) →
  ∃ scoredPods,
    SessionAffinityScorer.ScoreTargets ds ctx targets = Returns (scoredPods, None)
    ∧ (∀ i j psi psj,
         scoredPods !! i = Some psi → scoredPods !! j = Some psj →
         Score psi = 1%float → Score psj = 1%float → i = j)
    ∧ (SessionID req = "" →
       ∀ ps, ps ∈ scoredPods → Score ps ≠ 1%float).
Proof.
  intros Hreq Hnd Hsep.
  rewrite (SessionAffinity_ScoreTargets_eq ds ctx req targets Hreq).
  set (sel := if negb (String.eqb (SessionID req) "") then _ else _).
  eexists. split; [reflexivity|].
  assert (Hentry : ∀ i ps, map (affinityEntry sel) targets !! i = Some ps →
            ∃ p, targets !! i = Some p ∧ ps = affinityEntry sel p).
  { intros i ps Hi. change (map ?f targets) with (f <$> targets) in Hi.
    rewrite list_lookup_fmap in Hi.
    destruct (targets !! i) as [p|]; [|done]. injection Hi as <-. by exists p. }
  assert (Hone : ∀ p, Score (affinityEntry sel p) = 1%float →
            sel = NamespacedName_String (pm_NamespacedName p)).
  { intros p. unfold affinityEntry. cbn [Score].
    destruct (String.eqb sel _) eqn:He; [by apply String.eqb_eq in He|].
    intros H. symmetry in H. by apply float_one_ne_zero in H. }
  split.
  - intros i j psi psj Hi Hj Hsi Hsj.
    destruct (Hentry i psi Hi) as (p & Hp & ->).
    destruct (Hentry j psj Hj) as (q & Hq & ->).
    apply Hone in Hsi. apply Hone in Hsj.
    assert (Hpq : pm_NamespacedName p = pm_NamespacedName q).
    { apply NamespacedName_String_inj.
      - apply Hsep. by apply list_elem_of_lookup_2 with i.
      - apply Hsep. by apply list_elem_of_lookup_2 with j.
      - congruence. }
    apply (NoDup_lookup (pm_NamespacedName <$> targets) i j (pm_NamespacedName p)).
    + done.
    + by rewrite list_lookup_fmap, Hp.
    + rewrite list_lookup_fmap, Hq. simpl. by rewrite Hpq.
  - intros Hsid ps Hps Hs.
    apply list_elem_of_lookup_1 in Hps as [i Hi].
    destruct (Hentry i ps Hi) as (p & _ & ->).
    apply Hone in Hs. subst sel. rewrite Hsid in Hs. cbn in Hs.
    symmetry in Hs. by apply NamespacedName_String_nonempty in Hs.
Qed.

Lemma SessionAffinityScorer_at_most_one_witness :
  let a := mkPodMetrics (mkPod (mkNamespacedName "default" "pod-a") "10.0.0.1:8000")
                        (mkMetrics 0 0 [] 4) in
  let b := mkPodMetrics (mkPod (mkNamespacedName "default" "pod-b") "10.0.0.2:8000")
                        (mkMetrics 3 0 [] 4) in
  let req := mkLLMRequest "m" "hello" "s1" true in
  let ds := Datastore.SetPodForSession 7 "s1" (Some (pm_Pod b))
              Datastore.NewDatastore in
  ∃ scoredPods,
    SessionAffinityScorer.ScoreTargets ds (NewContext (Some req) [a; b]) [a; b]
    = Returns (scoredPods, None)
    ∧ ∀ i j psi psj,
        scoredPods !! i = Some psi → scoredPods !! j = Some psj →
        Score psi = 1%float → Score psj = 1%float → i = j.
Proof.
  intros a b req ds.
  destruct (SessionAffinityScorer_at_most_one ds (NewContext (Some req) [a; b])
              req [a; b] eq_refl) as (scoredPods & Hret & Hone & _).
  - apply NoDup_cons. split.
    + intros [H|H]%elem_of_cons; [discriminate H|by apply elem_of_nil in H].
    + apply NoDup_singleton.
  - intros p [->|[->|H]%elem_of_cons]%elem_of_cons;
      [reflexivity|reflexivity|by apply elem_of_nil in H].
  - by exists scoredPods.
Defined.
